(** * Market history plugin: bucket aggregation and eviction

    Shallow embedding of [libraries/plugins/market_history/market_history_plugin.cpp]
    (graphene).  The plugin is called back after every applied block; its
    visitor [operation_process_fill_order] folds every [fill_order_operation]
    of the block into one OHLC/volume bucket per tracked bucket size and then
    prunes old buckets of the same market and size.

    Unsigned quantities ([uint32_t] seconds, asset instance numbers) are
    modelled in [N], with the 32-bit wrap-around written out where the source
    multiplies; [share_type] amounts are modelled in [Z]. *)

From Stdlib Require Import ZArith NArith List Bool Lia Sorted.
Import ListNotations.

(** ** Machine integers *)

(** [uint32_t] arithmetic wraps modulo [2^32]. *)
Definition wrap32 (x : N) : N := (x mod 4294967296)%N.

(** ** Assets and prices *)

(** [asset]: an amount ([share_type]) of the asset whose id is [asset_id]. *)
Record asset := mk_asset { amount : Z; asset_id : N }.

(** [price]: a base/quote pair of assets. *)
Record price := mk_price { base : asset; quote : asset }.

(** Modelled from the spec: [operator/] on two assets is defined in the chain
    library, outside the given sources.  The trade price is "the ratio
    [pays_amount / receives_amount] (base per quote), retained as a base/quote
    amount pair rather than a float". *)
Definition asset_div (a b : asset) : price := {| base := a; quote := b |}.

(** Modelled from the spec: [operator<] on prices is defined in the chain
    library, outside the given sources.  Prices of one market are compared
    "via cross-multiplication": [a < b] iff
    [b.quote.amount * a.base.amount < a.quote.amount * b.base.amount]. *)
Definition price_lt (a b : price) : bool :=
  (amount (quote b) * amount (base a) <? amount (quote a) * amount (base b))%Z.

(** [a > b] is [b < a]. *)
Definition price_gt (a b : price) : bool := price_lt b a.

(** [a >= b] is [!(a < b)], [a <= b] is [!(b < a)]. *)
Definition price_ge (a b : price) : bool := negb (price_lt a b).
Definition price_le (a b : price) : bool := negb (price_lt b a).

(** ** Bucket keys and bucket objects *)

(** [bucket_key]: market [(base, quote)], bucket size [seconds], start of the
    interval [open] (a [time_point_sec], seconds since the epoch). *)
Record bucket_key := mk_key {
  key_base : N;
  key_quote : N;
  key_seconds : N;
  key_open : N
}.

(** Keys are ordered lexicographically on [(base, quote, seconds, open)]. *)
Definition key_ltb (a b : bucket_key) : bool :=
  ((key_base a <? key_base b) ||
   ((key_base a =? key_base b) &&
    ((key_quote a <? key_quote b) ||
     ((key_quote a =? key_quote b) &&
      ((key_seconds a <? key_seconds b) ||
       ((key_seconds a =? key_seconds b) &&
        (key_open a <? key_open b)))))))%N.

Definition key_eqb (a b : bucket_key) : bool :=
  ((key_base a =? key_base b) && (key_quote a =? key_quote b) &&
   (key_seconds a =? key_seconds b) && (key_open a =? key_open b))%N.

Record bucket_object := mk_bucket {
  key : bucket_key;
  high_base : Z;
  high_quote : Z;
  low_base : Z;
  low_quote : Z;
  open_base : Z;
  open_quote : Z;
  close_base : Z;
  close_quote : Z;
  base_volume : Z;
  quote_volume : Z
}.

(** Modelled from the spec: [bucket_object::high()] and [low()] are declared
    in the plugin header, outside the given sources; the price "is always
    reconstructed as [amount_base / amount_quote]" of the market's assets. *)
Definition high (b : bucket_object) : price :=
  asset_div (mk_asset (high_base b) (key_base (key b)))
            (mk_asset (high_quote b) (key_quote (key b))).

Definition low (b : bucket_object) : price :=
  asset_div (mk_asset (low_base b) (key_base (key b)))
            (mk_asset (low_quote b) (key_quote (key b))).

(** The open and close prices of a bucket, reconstructed the same way. *)
Definition open_price (b : bucket_object) : price :=
  asset_div (mk_asset (open_base b) (key_base (key b)))
            (mk_asset (open_quote b) (key_quote (key b))).

Definition close_price (b : bucket_object) : price :=
  asset_div (mk_asset (close_base b) (key_base (key b)))
            (mk_asset (close_quote b) (key_quote (key b))).

(** ** Operations *)

(** The fields of [fill_order_operation] read by the plugin. *)
Record fill_order_operation := mk_fill { pays : asset; receives : asset }.

(** The operation variant.  Only the fill variant carries data the plugin
    reads; the witness operations of [witness_evaluator.hpp] and all remaining
    variants (numbered by their tag) are handled by the generic visitor case. *)
Inductive operation :=
| fill_order (o : fill_order_operation)
| witness_create
| witness_withdraw_pay
| other_operation (tag : nat).

(** ** The bucket index *)

(** Modelled from the spec: the object database and [bucket_index] are
    defined outside the given sources.  The store is "an ordered associative
    container keyed by BucketKey"; it is kept here as the list of its objects
    in the order of the [by_key] index. *)
Definition database := list bucket_object.

(** [by_key_idx.find( key )]. *)
Fixpoint find (k : bucket_key) (db : database) : option bucket_object :=
  match db with
  | [] => None
  | b :: rest => if key_eqb (key b) k then Some b else find k rest
  end.

(** [db.create<bucket_object>( init )]: the new object takes its place in the
    ordered index, before the first object whose key is not smaller.  The
    visitor calls it only after [find] has failed for the key. *)
Fixpoint create (b : bucket_object) (db : database) : database :=
  match db with
  | [] => [b]
  | x :: rest =>
      if key_ltb (key x) (key b) then x :: create b rest else b :: x :: rest
  end.

(** [db.modify( *itr, f )] for the object found under key [k]. *)
Fixpoint modify (k : bucket_key) (f : bucket_object -> bucket_object)
    (db : database) : database :=
  match db with
  | [] => []
  | x :: rest =>
      if key_eqb (key x) k then f x :: rest else x :: modify k f rest
  end.

(** [by_key_idx.lower_bound( key )]: the index is split at the first object
    whose key is not smaller than [k]; the iterator points at the head of the
    second part. *)
Fixpoint lower_bound (k : bucket_key) (db : database) : database * database :=
  match db with
  | [] => ([], [])
  | x :: rest =>
      if key_ltb (key x) k
      then let (before, from) := lower_bound k rest in (x :: before, from)
      else ([], db)
  end.

(** ** The per-operation visitor *)

(** Default-constructed [bucket_object]: all amounts are zero. *)
Definition bucket_object_default (k : bucket_key) : bucket_object :=
  mk_bucket k 0 0 0 0 0 0 0 0 0 0.

(** The initialiser passed to [db.create] (source lines 108-120). *)
Definition create_bucket (k : bucket_key) (trade_price : price) : bucket_object :=
  let b := bucket_object_default k in
  let quote_volume' := (quote_volume b + amount (quote trade_price))%Z in
  let base_volume' := (base_volume b + amount (base trade_price))%Z in
  let open_base' := amount (base trade_price) in
  let open_quote' := amount (quote trade_price) in
  let close_base' := amount (base trade_price) in
  let close_quote' := amount (quote trade_price) in
  {| key := k;
     high_base := close_base'; high_quote := close_quote';
     low_base := close_base'; low_quote := close_quote';
     open_base := open_base'; open_quote := open_quote';
     close_base := close_base'; close_quote := close_quote';
     base_volume := base_volume'; quote_volume := quote_volume' |}.

(** The modifier passed to [db.modify] (source lines 126-141), statement by
    statement. *)
Definition update_bucket (trade_price : price) (b : bucket_object) : bucket_object :=
  let b1 :=
    {| key := key b;
       high_base := high_base b; high_quote := high_quote b;
       low_base := low_base b; low_quote := low_quote b;
       open_base := open_base b; open_quote := open_quote b;
       close_base := amount (base trade_price);
       close_quote := amount (quote trade_price);
       base_volume := (base_volume b + amount (base trade_price))%Z;
       quote_volume := (quote_volume b + amount (quote trade_price))%Z |} in
  let b2 :=
    if price_lt (high b1) trade_price
    then {| key := key b1;
            high_base := close_base b1; high_quote := close_quote b1;
            low_base := low_base b1; low_quote := low_quote b1;
            open_base := open_base b1; open_quote := open_quote b1;
            close_base := close_base b1; close_quote := close_quote b1;
            base_volume := base_volume b1; quote_volume := quote_volume b1 |}
    else b1 in
  if price_gt (low b2) trade_price
  then {| key := key b2;
          high_base := high_base b2; high_quote := high_quote b2;
          low_base := close_base b2; low_quote := close_quote b2;
          open_base := open_base b2; open_quote := open_quote b2;
          close_base := close_base b2; close_quote := close_quote b2;
          base_volume := base_volume b2; quote_volume := quote_volume b2 |}
  else b2.

(** The loop condition of the pruning loop (source lines 150-154), for the
    object the iterator points at. *)
Definition is_old (k : bucket_key) (bucket cutoff : N) (x : bucket_object) : bool :=
  ((key_base (key x) =? key_base k) &&
   (key_quote (key x) =? key_quote k) &&
   (key_seconds (key x) =? bucket) &&
   (key_open (key x) <? cutoff))%N.

(** The [while] loop: remove the object under the iterator and advance, until
    the end of the index or the first object failing the condition. *)
Fixpoint remove_while (cond : bucket_object -> bool) (from : database) : database :=
  match from with
  | [] => []
  | x :: rest => if cond x then remove_while cond rest else x :: rest
  end.

(** Source lines 147-160: reset [key.open] to the epoch, take the lower bound
    and run the loop. *)
Definition remove_old_buckets (k : bucket_key) (bucket cutoff : N)
    (db : database) : database :=
  let k0 := mk_key (key_base k) (key_quote k) (key_seconds k) 0 in
  let (before, from) := lower_bound k0 db in
  before ++ remove_while (is_old k0 bucket cutoff) from.

(** Source line 83: [fc::time_point() + fc::seconds( bucket * max_history )],
    a product of two [uint32_t], as seconds since the epoch. *)
Definition cutoff_of (bucket max_history : N) : N := wrap32 (bucket * max_history).

(** Source line 102: the start of the interval of size [bucket] holding [now]. *)
Definition open_of (now bucket : N) : N := wrap32 ((now / bucket) * bucket).

(** The find / create / modify step (source lines 104-143). *)
Definition update_or_create (k : bucket_key) (trade_price : price)
    (db : database) : database :=
  match find k db with
  | None => create (create_bucket k trade_price) db
  | Some _ => modify k (update_bucket trade_price) db
  end.

(** One iteration of [for( auto bucket : buckets )] (source lines 82-162).
    The result is [None] where the source divides by a zero bucket size,
    which C++ leaves undefined. *)
Definition process_bucket (max_history now : N) (o : fill_order_operation)
    (db : database) (bucket : N) : option database :=
  let cutoff := cutoff_of bucket max_history in
  let kb := asset_id (pays o) in
  let kq := asset_id (receives o) in
  if (kq <? kb)%N then Some db
  else
    let trade_price := asset_div (pays o) (receives o) in
    if (bucket =? 0)%N then None
    else
      let k := mk_key kb kq bucket (open_of now bucket) in
      let db1 := update_or_create k trade_price db in
      if (max_history =? 0)%N then Some db1
      else Some (remove_old_buckets k bucket cutoff db1).

(** The plugin's configuration: [_tracked_buckets] (a [flat_set<uint32_t>],
    iterated in ascending order) and [_maximum_history_per_bucket_size]. *)
Record market_history_plugin := mk_plugin {
  tracked_buckets : list N;
  max_history : N
}.

(** Sequencing of steps that may be undefined. *)
Definition bind {A B} (m : option A) (f : A -> option B) : option B :=
  match m with
  | Some a => f a
  | None => None
  end.

Fixpoint for_each {A} (step : database -> A -> option database)
    (l : list A) (db : database) : option database :=
  match l with
  | [] => Some db
  | x :: rest => bind (step db x) (for_each step rest)
  end.

(** [operation_process_fill_order::operator()( const fill_order_operation& )]. *)
Definition process_fill_order (plugin : market_history_plugin) (now : N)
    (o : fill_order_operation) (db : database) : option database :=
  for_each (process_bucket (max_history plugin) now o) (tracked_buckets plugin) db.

(** [op.visit( operation_process_fill_order( _self, b.timestamp ) )]: the
    template overload does nothing for the other operation types. *)
Definition visit (plugin : market_history_plugin) (now : N)
    (db : database) (op : operation) : option database :=
  match op with
  | fill_order o => process_fill_order plugin now o db
  | _ => Some db
  end.

(** What the block-applied callback receives: the block's timestamp and the
    operations applied in the block ([db.get_applied_operations()]). *)
Record applied_block := mk_block {
  timestamp : N;
  applied_operations : list operation
}.

(** [market_history_plugin_impl::update_market_histories]. *)
Definition update_market_histories (plugin : market_history_plugin)
    (db : database) (b : applied_block) : option database :=
  if (max_history plugin =? 0)%N then Some db
  else if (N.of_nat (length (tracked_buckets plugin)) =? 0)%N then Some db
  else for_each (visit plugin (timestamp b)) (applied_operations b) db.

(** Applying a sequence of blocks, the callback firing once per block. *)
Definition replay (plugin : market_history_plugin) (blocks : list applied_block)
    (db : database) : option database :=
  for_each (update_market_histories plugin) blocks db.

(** ** Plugin initialisation *)

(** [flat_set::insert]: sorted, without duplicates. *)
Fixpoint flat_set_insert (x : N) (s : list N) : list N :=
  match s with
  | [] => [x]
  | y :: rest =>
      if (x <? y)%N then x :: y :: rest
      else if (x =? y)%N then y :: rest
      else y :: flat_set_insert x rest
  end.

(** [plugin_initialize]: the [bucket-size] options are inserted one by one;
    [history-per-size] defaults to 1000. *)
Definition plugin_initialize (bucket_size : list N) (history_per_size : option N)
    : market_history_plugin :=
  {| tracked_buckets := fold_left (fun s o => flat_set_insert o s) bucket_size [];
     max_history := match history_per_size with
                    | Some h => h
                    | None => 1000%N
                    end |}.

(** ** Vocabulary of the properties *)

Local Open Scope N_scope.

(** The [by_key] index is strictly ordered: no two objects share a key. *)
Definition key_lt_obj (a b : bucket_object) : Prop := key_ltb (key a) (key b) = true.

Definition sorted (db : database) : Prop := StronglySorted key_lt_obj db.

(** The key assembled for event [o] and bucket size [d] at block time [now]. *)
Definition bucket_key_of (now : N) (o : fill_order_operation) (d : N) : bucket_key :=
  mk_key (asset_id (pays o)) (asset_id (receives o)) d (open_of now d).

(** [o.pays / o.receives]. *)
Definition trade_price_of (o : fill_order_operation) : price :=
  asset_div (pays o) (receives o).

(** The event passes the duplicate filter: not [key.base > key.quote]. *)
Definition accepted (o : fill_order_operation) : bool :=
  negb (asset_id (receives o) <? asset_id (pays o)).

(** The bucket found under a key after the find / create / modify step, from
    what was found there before. *)
Definition upsert (k : bucket_key) (p : price) (r : option bucket_object)
    : bucket_object :=
  match r with
  | None => create_bucket k p
  | Some b => update_bucket p b
  end.

(** The pruning step as the loop guards it (source line 145). *)
Definition prune (max_history : N) (k : bucket_key) (d : N) (db : database)
    : database :=
  if max_history =? 0 then db
  else remove_old_buckets k d (cutoff_of d max_history) db.

(** A bucket is live when the pruning loop of its own group rejects it. *)
Definition live (mh : N) (k : bucket_key) : Prop :=
  mh = 0 \/ cutoff_of (key_seconds k) mh <= key_open k.

(** Event [o] at block time [now] lands in the slot of key [k]. *)
Definition routes (now : N) (o : fill_order_operation) (k : bucket_key) : bool :=
  accepted o &&
  (asset_id (pays o) =? key_base k) && (asset_id (receives o) =? key_quote k) &&
  (open_of now (key_seconds k) =? key_open k).

(** A configuration the plugin can run with: the tracked bucket sizes form a
    set of non-zero sizes. *)
Definition well_configured (plugin : market_history_plugin) : Prop :=
  NoDup (tracked_buckets plugin) /\ Forall (fun d => d <> 0) (tracked_buckets plugin).

(** Key [k] belongs to a tracked bucket size and is never pruned. *)
Definition tracked_live (plugin : market_history_plugin) (k : bucket_key) : Prop :=
  In (key_seconds k) (tracked_buckets plugin) /\ live (max_history plugin) k.

(** The trade prices of the operations that land in the slot of key [k]. *)
Definition routed_prices (now : N) (k : bucket_key) (ops : list operation)
    : list price :=
  flat_map (fun op => match op with
                      | fill_order o =>
                          if routes now o k then [trade_price_of o] else []
                      | _ => []
                      end) ops.

(** The bucket under one key as trades are routed into it one after another. *)
Definition routed (k : bucket_key) (ps : list price) (r : option bucket_object)
    : option bucket_object :=
  fold_left (fun r p => Some (upsert k p r)) ps r.

(** The prices routed into the slot of [k] by a sequence of blocks. *)
Definition routed_prices_blocks (k : bucket_key) (blocks : list applied_block)
    : list price :=
  flat_map (fun b => routed_prices (timestamp b) k (applied_operations b)) blocks.

(** A property of fill events, lifted to operations and blocks. *)
Definition operation_holds (Q : fill_order_operation -> Prop) (op : operation) : Prop :=
  match op with
  | fill_order o => Q o
  | _ => True
  end.

Definition block_holds (Q : fill_order_operation -> Prop) (b : applied_block) : Prop :=
  Forall (operation_holds Q) (applied_operations b).

Definition price_nonneg (p : price) : Prop :=
  (0 <= amount (base p) /\ 0 <= amount (quote p))%Z.

(** All stored price amounts are non-negative. *)
Definition bucket_nonneg (b : bucket_object) : Prop :=
  price_nonneg (high b) /\ price_nonneg (low b) /\
  price_nonneg (open_price b) /\ price_nonneg (close_price b).

(** The OHLC invariant of a bucket, under the cross-multiplied comparison:
    [high() >= open, close, low()] and [low() <= open, close, high()]. *)
Definition ohlc_invariant (b : bucket_object) : bool :=
  price_ge (high b) (open_price b) && price_ge (high b) (close_price b) &&
  price_ge (high b) (low b) &&
  price_le (low b) (open_price b) && price_le (low b) (close_price b) &&
  price_le (low b) (high b).

(** The amounts of a fill event are non-negative. *)
Definition fill_nonneg (o : fill_order_operation) : Prop :=
  (0 <= amount (pays o) /\ 0 <= amount (receives o))%Z.

Definition total_base (ps : list price) : Z :=
  fold_right Z.add 0%Z (map (fun p => amount (base p)) ps).

Definition total_quote (ps : list price) : Z :=
  fold_right Z.add 0%Z (map (fun p => amount (quote p)) ps).

(** The volumes recorded under key [k]; zero while no bucket exists there. *)
Definition base_volume_at (k : bucket_key) (db : database) : Z :=
  match find k db with
  | Some b => base_volume b
  | None => 0%Z
  end.

Definition quote_volume_at (k : bucket_key) (db : database) : Z :=
  match find k db with
  | Some b => quote_volume b
  | None => 0%Z
  end.

Definition volumes_of (r : option bucket_object) : Z * Z :=
  match r with
  | Some b => (base_volume b, quote_volume b)
  | None => (0%Z, 0%Z)
  end.

(** The operation is the trade-fill variant. *)
Definition is_fill_order (op : operation) : bool :=
  match op with
  | fill_order _ => true
  | _ => false
  end.

(** The amounts of a price, as the bucket stores them. *)
Definition price_amounts (p : price) : Z * Z := (amount (base p), amount (quote p)).

(** The loop condition of the pruning pass for event [o] and bucket size [d],
    read on an object of the index. *)
Definition pruned_by (mh : N) (o : fill_order_operation) (d : N)
    (x : bucket_object) : bool :=
  (key_base (key x) =? asset_id (pays o)) &&
  (key_quote (key x) =? asset_id (receives o)) &&
  (key_seconds (key x) =? d) &&
  (key_open (key x) <? cutoff_of d mh).

(** What every key written by the plugin looks like. *)
Definition key_well_formed (plugin : market_history_plugin) (k : bucket_key) : Prop :=
  key_base k <= key_quote k /\
  In (key_seconds k) (tracked_buckets plugin) /\
  key_open k mod key_seconds k = 0.

(** * Properties *)

(** ** Keys *)

Ltac bool_prop :=
  repeat (rewrite ?andb_true_iff, ?orb_true_iff, ?andb_false_iff, ?orb_false_iff,
            ?negb_true_iff, ?negb_false_iff,
            ?N.ltb_lt, ?N.ltb_ge, ?N.eqb_eq, ?N.eqb_neq,
            ?Z.ltb_lt, ?Z.ltb_ge in *).

Lemma key_eqb_eq (a b : bucket_key) : key_eqb a b = true <-> a = b.
Proof.
  destruct a as [a1 a2 a3 a4], b as [b1 b2 b3 b4]; unfold key_eqb; simpl.
  bool_prop. split.
  - intros [[[-> ->] ->] ->]; reflexivity.
  - intros H; injection H; auto.
Qed.

Lemma key_eqb_refl (a : bucket_key) : key_eqb a a = true.
Proof. apply key_eqb_eq; reflexivity. Qed.

Lemma key_eqb_neq (a b : bucket_key) : key_eqb a b = false <-> a <> b.
Proof.
  rewrite <- key_eqb_eq. destruct (key_eqb a b); intuition congruence.
Qed.

Lemma key_ltb_irrefl (a : bucket_key) : key_ltb a a = false.
Proof.
  destruct a; unfold key_ltb; simpl.
  rewrite !N.ltb_irrefl, !N.eqb_refl; reflexivity.
Qed.

Lemma key_ltb_trans (a b c : bucket_key) :
  key_ltb a b = true -> key_ltb b c = true -> key_ltb a c = true.
Proof.
  destruct a, b, c; unfold key_ltb; simpl. bool_prop. lia.
Qed.

Lemma key_ltb_neq (a b : bucket_key) : key_ltb a b = true -> a <> b.
Proof.
  intros H ->. rewrite key_ltb_irrefl in H; discriminate.
Qed.

Lemma key_ltb_total (a b : bucket_key) :
  key_ltb a b = false -> a = b \/ key_ltb b a = true.
Proof.
  destruct a as [a1 a2 a3 a4], b as [b1 b2 b3 b4]; unfold key_ltb; simpl.
  bool_prop. intros H.
  destruct (N.eq_dec a1 b1) as [-> | ?]; [ | right; lia].
  destruct (N.eq_dec a2 b2) as [-> | ?]; [ | right; lia].
  destruct (N.eq_dec a3 b3) as [-> | ?]; [ | right; lia].
  destruct (N.eq_dec a4 b4) as [-> | ?]; [left; reflexivity | right; lia].
Qed.

(** ** The index: lookups after [create], [modify] and pruning *)

Lemma find_create_same b db : find (key b) (create b db) = Some b.
Proof.
  induction db as [ | x rest IH]; simpl.
  - rewrite key_eqb_refl; reflexivity.
  - destruct (key_ltb (key x) (key b)) eqn:L; simpl.
    + destruct (key_eqb (key x) (key b)) eqn:E; [ | exact IH].
      apply key_eqb_eq in E. apply key_ltb_neq in L. contradiction.
    + rewrite key_eqb_refl; reflexivity.
Qed.

Lemma find_create_other k b db : k <> key b -> find k (create b db) = find k db.
Proof.
  intros Hk. induction db as [ | x rest IH]; simpl.
  - destruct (key_eqb (key b) k) eqn:E; [ | reflexivity].
    apply key_eqb_eq in E; congruence.
  - destruct (key_ltb (key x) (key b)); simpl.
    + rewrite IH; reflexivity.
    + destruct (key_eqb (key b) k) eqn:E; [ | reflexivity].
      apply key_eqb_eq in E; congruence.
Qed.

Section Modify.
Variable f : bucket_object -> bucket_object.
Hypothesis f_key : forall x, key (f x) = key x.

Lemma find_modify_same k db b :
  find k db = Some b -> find k (modify k f db) = Some (f b).
Proof.
  induction db as [ | x rest IH]; simpl; [discriminate | ].
  destruct (key_eqb (key x) k) eqn:E; simpl.
  - intros [= <-]. rewrite f_key, E; reflexivity.
  - rewrite E; exact IH.
Qed.

Lemma find_modify_other k k' db :
  k' <> k -> find k' (modify k f db) = find k' db.
Proof.
  intros Hk. induction db as [ | x rest IH]; simpl; [reflexivity | ].
  destruct (key_eqb (key x) k) eqn:E; simpl.
  - rewrite f_key. apply key_eqb_eq in E.
    destruct (key_eqb (key x) k') eqn:E'; [ | reflexivity].
    apply key_eqb_eq in E'; congruence.
  - rewrite IH; reflexivity.
Qed.
End Modify.

Lemma update_bucket_key p b : key (update_bucket p b) = key b.
Proof.
  unfold update_bucket.
  repeat match goal with |- context [if ?c then _ else _] => destruct c end;
    reflexivity.
Qed.

Lemma create_bucket_key k p : key (create_bucket k p) = k.
Proof. reflexivity. Qed.

(** After the find / create / modify step the bucket under [k] is the newly
    created one, or the updated one. *)
Lemma find_update_or_create_same k p db :
  find k (update_or_create k p db) =
  Some match find k db with
       | None => create_bucket k p
       | Some b => update_bucket p b
       end.
Proof.
  unfold update_or_create. destruct (find k db) as [b | ] eqn:F.
  - apply find_modify_same; [apply update_bucket_key | exact F].
  - rewrite <- (create_bucket_key k p) at 1. apply find_create_same.
Qed.

Lemma find_update_or_create_other k k' p db :
  k' <> k -> find k' (update_or_create k p db) = find k' db.
Proof.
  intros Hk. unfold update_or_create. destruct (find k db).
  - apply find_modify_other; [apply update_bucket_key | exact Hk].
  - apply find_create_other. exact Hk.
Qed.

(** [lower_bound] only splits the index. *)
Lemma lower_bound_app k db :
  fst (lower_bound k db) ++ snd (lower_bound k db) = db.
Proof.
  induction db as [ | x rest IH]; simpl; [reflexivity | ].
  destruct (key_ltb (key x) k); [ | reflexivity].
  destruct (lower_bound k rest) as [before from]; simpl in *.
  rewrite IH; reflexivity.
Qed.

Lemma find_app k l1 l2 :
  find k (l1 ++ l2) = match find k l1 with Some b => Some b | None => find k l2 end.
Proof.
  induction l1 as [ | x rest IH]; simpl; [reflexivity | ].
  destruct (key_eqb (key x) k); [reflexivity | exact IH].
Qed.

Lemma find_remove_while cond k from :
  (forall x, key x = k -> cond x = false) ->
  find k (remove_while cond from) = find k from.
Proof.
  intros Hk. induction from as [ | x rest IH]; simpl; [reflexivity | ].
  destruct (cond x) eqn:C; simpl; [ | reflexivity].
  destruct (key_eqb (key x) k) eqn:E; [ | exact IH].
  apply key_eqb_eq in E. rewrite (Hk x E) in C; discriminate.
Qed.

(** Pruning leaves every bucket in place that the loop condition rejects. *)
Lemma find_remove_old_buckets k bucket cutoff k' db :
  (key_base k' =? key_base k) && (key_quote k' =? key_quote k) &&
  (key_seconds k' =? bucket) && (key_open k' <? cutoff) = false ->
  find k' (remove_old_buckets k bucket cutoff db) = find k' db.
Proof.
  intros Hk. unfold remove_old_buckets.
  set (k0 := mk_key _ _ _ 0).
  rewrite <- (lower_bound_app k0 db) at 2.
  destruct (lower_bound k0 db) as [before from]; simpl.
  rewrite !find_app. destruct (find k' before); [reflexivity | ].
  apply find_remove_while. intros x <-. exact Hk.
Qed.

(** ** The index stays ordered *)

Lemma Forall_create (P : bucket_object -> Prop) b db :
  P b -> Forall P db -> Forall P (create b db).
Proof.
  intros Hb. induction 1 as [ | x rest Hx Hrest IH]; simpl.
  - constructor; [exact Hb | constructor].
  - destruct (key_ltb (key x) (key b)); repeat constructor; assumption.
Qed.

Lemma Forall_modify (P : bucket_object -> Prop) k f db :
  (forall x, P x -> P (f x)) -> Forall P db -> Forall P (modify k f db).
Proof.
  intros Hf. induction 1 as [ | x rest Hx Hrest IH]; simpl.
  - constructor.
  - destruct (key_eqb (key x) k); constructor; auto.
Qed.

Lemma Forall_remove_while (P : bucket_object -> Prop) cond from :
  Forall P from -> Forall P (remove_while cond from).
Proof.
  induction 1 as [ | x rest Hx Hrest IH]; simpl.
  - constructor.
  - destruct (cond x); [exact IH | constructor; assumption].
Qed.

Lemma Forall_remove_old_buckets (P : bucket_object -> Prop) k bucket cutoff db :
  Forall P db -> Forall P (remove_old_buckets k bucket cutoff db).
Proof.
  unfold remove_old_buckets. set (k0 := mk_key _ _ _ 0).
  intros H. rewrite <- (lower_bound_app k0 db) in H.
  destruct (lower_bound k0 db) as [before from]; simpl in *.
  apply Forall_app in H. destruct H as [H1 H2].
  apply Forall_app; split; [exact H1 | ].
  apply Forall_remove_while; exact H2.
Qed.

Lemma Forall_update_or_create (P : bucket_object -> Prop) k p db :
  P (create_bucket k p) -> (forall x, P x -> P (update_bucket p x)) ->
  Forall P db -> Forall P (update_or_create k p db).
Proof.
  intros Hc Hu H. unfold update_or_create. destruct (find k db).
  - apply Forall_modify; assumption.
  - apply Forall_create; assumption.
Qed.

Lemma create_sorted b db :
  sorted db -> find (key b) db = None -> sorted (create b db).
Proof.
  unfold sorted. intros S. induction S as [ | x rest S IH Hx]; simpl; intros F.
  - repeat constructor.
  - destruct (key_eqb (key x) (key b)) eqn:E; [discriminate | ].
    apply key_eqb_neq in E.
    destruct (key_ltb (key x) (key b)) eqn:L.
    + constructor; [exact (IH F) | ].
      apply Forall_create; [exact L | exact Hx].
    + assert (Lb : key_ltb (key b) (key x) = true).
      { destruct (key_ltb_total _ _ L) as [Heq | Hlt]; [contradiction | exact Hlt]. }
      constructor; [constructor; assumption | ].
      constructor; [exact Lb | ].
      eapply Forall_impl; [ | exact Hx].
      intros y Hy. unfold key_lt_obj in *. eapply key_ltb_trans; eassumption.
Qed.

Lemma modify_sorted k f db :
  (forall x, key (f x) = key x) -> sorted db -> sorted (modify k f db).
Proof.
  unfold sorted. intros Hf S. induction S as [ | x rest S IH Hx]; simpl.
  - constructor.
  - destruct (key_eqb (key x) k).
    + constructor; [exact S | ].
      eapply Forall_impl; [ | exact Hx].
      intros y Hy. unfold key_lt_obj in *. rewrite Hf; exact Hy.
    + constructor; [exact IH | ].
      apply Forall_modify; [ | exact Hx].
      intros y Hy. unfold key_lt_obj in *. rewrite Hf; exact Hy.
Qed.

Lemma remove_while_sorted cond from : sorted from -> sorted (remove_while cond from).
Proof.
  unfold sorted. induction 1 as [ | x rest S IH Hx]; simpl.
  - constructor.
  - destruct (cond x); [exact IH | constructor; assumption].
Qed.

Lemma sorted_app_inv l1 l2 : sorted (l1 ++ l2) -> sorted l2.
Proof.
  unfold sorted. induction l1 as [ | x rest IH]; simpl; [auto | ].
  intros S; inversion S; auto.
Qed.

Lemma sorted_app_remove_while cond l1 l2 :
  sorted (l1 ++ l2) -> sorted (l1 ++ remove_while cond l2).
Proof.
  unfold sorted. induction l1 as [ | x rest IH]; simpl.
  - apply remove_while_sorted.
  - intros S; inversion S as [ | ? ? S' Hx]; subst.
    constructor; [exact (IH S') | ].
    apply Forall_app in Hx. destruct Hx as [H1 H2].
    apply Forall_app; split; [exact H1 | ].
    apply Forall_remove_while; exact H2.
Qed.

Lemma remove_old_buckets_sorted k bucket cutoff db :
  sorted db -> sorted (remove_old_buckets k bucket cutoff db).
Proof.
  unfold remove_old_buckets. set (k0 := mk_key _ _ _ 0).
  intros S. rewrite <- (lower_bound_app k0 db) in S.
  destruct (lower_bound k0 db) as [before from]; simpl in *.
  apply sorted_app_remove_while; exact S.
Qed.

Lemma update_or_create_sorted k p db :
  sorted db -> sorted (update_or_create k p db).
Proof.
  intros S. unfold update_or_create. destruct (find k db) eqn:F.
  - apply modify_sorted; [apply update_bucket_key | exact S].
  - apply create_sorted; [exact S | exact F].
Qed.

(** ** What the pruning loop removes *)

Lemma lower_bound_before k db :
  Forall (fun x => key_ltb (key x) k = true) (fst (lower_bound k db)).
Proof.
  induction db as [ | x rest IH]; simpl; [constructor | ].
  destruct (key_ltb (key x) k) eqn:L; [ | constructor].
  destruct (lower_bound k rest) as [before from]; simpl in *.
  constructor; assumption.
Qed.

Lemma lower_bound_from k db :
  sorted db -> Forall (fun x => key_ltb (key x) k = false) (snd (lower_bound k db)).
Proof.
  unfold sorted. induction 1 as [ | x rest S IH Hx]; simpl; [constructor | ].
  destruct (key_ltb (key x) k) eqn:L.
  - destruct (lower_bound k rest) as [before from]; simpl in *. exact IH.
  - simpl. constructor; [exact L | ].
    eapply Forall_impl; [ | exact Hx].
    intros y Hy. unfold key_lt_obj in Hy.
    destruct (key_ltb (key y) k) eqn:Ly; [ | reflexivity].
    rewrite (key_ltb_trans _ _ _ Hy Ly) in L; discriminate.
Qed.

(** Objects before the lower bound are outside the group being pruned. *)
Lemma is_old_before b q d cutoff x :
  key_ltb (key x) (mk_key b q d 0) = true ->
  is_old (mk_key b q d 0) d cutoff x = false.
Proof.
  destruct x as [[x1 x2 x3 x4] ? ? ? ? ? ? ? ? ? ?]; unfold is_old, key_ltb; simpl.
  intros H. destruct ((x1 =? b) && (x2 =? q) && (x3 =? d) && (x4 <? cutoff)) eqn:E;
    [ | reflexivity].
  bool_prop. lia.
Qed.

(** Once the loop condition fails it fails for every later object. *)
Lemma is_old_after b q d cutoff x y :
  key_ltb (key x) (mk_key b q d 0) = false ->
  is_old (mk_key b q d 0) d cutoff x = false ->
  key_ltb (key x) (key y) = true ->
  is_old (mk_key b q d 0) d cutoff y = false.
Proof.
  destruct x as [[x1 x2 x3 x4] ? ? ? ? ? ? ? ? ? ?].
  destruct y as [[y1 y2 y3 y4] ? ? ? ? ? ? ? ? ? ?].
  unfold is_old, key_ltb; simpl. intros H1 H2 H3.
  destruct ((y1 =? b) && (y2 =? q) && (y3 =? d) && (y4 <? cutoff)) eqn:E;
    [ | reflexivity].
  bool_prop. lia.
Qed.

Lemma filter_all_true {A} (f : A -> bool) l :
  Forall (fun x => f x = true) l -> filter f l = l.
Proof.
  induction 1 as [ | x rest Hx Hrest IH]; simpl; [reflexivity | ].
  rewrite Hx, IH; reflexivity.
Qed.

Lemma remove_while_filter b q d cutoff from :
  sorted from ->
  Forall (fun x => key_ltb (key x) (mk_key b q d 0) = false) from ->
  remove_while (is_old (mk_key b q d 0) d cutoff) from =
  filter (fun x => negb (is_old (mk_key b q d 0) d cutoff x)) from.
Proof.
  unfold sorted. induction 1 as [ | x rest S IH Hx]; simpl; [reflexivity | ].
  intros F; inversion F as [ | ? ? Fx Frest]; subst.
  destruct (is_old (mk_key b q d 0) d cutoff x) eqn:C; simpl.
  - exact (IH Frest).
  - f_equal. symmetry. apply filter_all_true.
    eapply Forall_impl; [ | exact Hx].
    intros y Hy. unfold key_lt_obj in Hy.
    rewrite (is_old_after _ _ _ _ _ _ Fx C Hy); reflexivity.
Qed.

(** On an ordered index the pruning pass removes exactly the objects of the
    market [(base, quote)] and bucket size [seconds] of [k] that opened before
    [cutoff], and nothing else. *)
Lemma remove_old_buckets_filter k cutoff db :
  sorted db ->
  remove_old_buckets k (key_seconds k) cutoff db =
  filter (fun x => negb ((key_base (key x) =? key_base k) &&
                         (key_quote (key x) =? key_quote k) &&
                         (key_seconds (key x) =? key_seconds k) &&
                         (key_open (key x) <? cutoff))) db.
Proof.
  intros S. unfold remove_old_buckets.
  set (k0 := mk_key (key_base k) (key_quote k) (key_seconds k) 0).
  pose proof (lower_bound_app k0 db) as Happ.
  pose proof (lower_bound_before k0 db) as Hb.
  pose proof (lower_bound_from k0 db S) as Hf.
  destruct (lower_bound k0 db) as [before from]; simpl in *.
  assert (Sf : sorted from) by (apply (sorted_app_inv before); rewrite Happ; exact S).
  rewrite <- Happ, filter_app. f_equal.
  - symmetry. apply filter_all_true.
    eapply Forall_impl; [ | exact Hb].
    intros x Hx. apply (is_old_before _ _ _ cutoff) in Hx.
    unfold is_old in Hx; simpl in Hx. rewrite Hx; reflexivity.
  - apply remove_while_filter; assumption.
Qed.

(** ** One trade event, one bucket size *)

Lemma process_bucket_skipped mh now o db d :
  accepted o = false -> process_bucket mh now o db d = Some db.
Proof.
  unfold accepted, process_bucket. intros H.
  apply negb_false_iff in H. rewrite H; reflexivity.
Qed.

Lemma process_bucket_accepted mh now o db d :
  accepted o = true -> d <> 0 ->
  process_bucket mh now o db d =
  Some (prune mh (bucket_key_of now o d) d
          (update_or_create (bucket_key_of now o d) (trade_price_of o) db)).
Proof.
  unfold accepted, process_bucket, prune. intros H Hd.
  apply negb_true_iff in H. rewrite H.
  apply N.eqb_neq in Hd. rewrite Hd.
  destruct (mh =? 0); reflexivity.
Qed.

Lemma process_bucket_total mh now o db d :
  d <> 0 -> exists db', process_bucket mh now o db d = Some db'.
Proof.
  intros Hd. destruct (accepted o) eqn:A.
  - eexists. apply process_bucket_accepted; assumption.
  - eexists. apply process_bucket_skipped; assumption.
Qed.

Lemma find_prune mh k d k' db :
  (key_base k' =? key_base k) && (key_quote k' =? key_quote k) &&
  (key_seconds k' =? d) && (key_open k' <? cutoff_of d mh) = false ->
  find k' (prune mh k d db) = find k' db.
Proof.
  intros H. unfold prune. destruct (mh =? 0); [reflexivity | ].
  apply find_remove_old_buckets; exact H.
Qed.

Lemma Forall_prune (P : bucket_object -> Prop) mh k d db :
  Forall P db -> Forall P (prune mh k d db).
Proof.
  intros H. unfold prune. destruct (mh =? 0); [exact H | ].
  apply Forall_remove_old_buckets; exact H.
Qed.

Lemma prune_sorted mh k d db : sorted db -> sorted (prune mh k d db).
Proof.
  intros H. unfold prune. destruct (mh =? 0); [exact H | ].
  apply remove_old_buckets_sorted; exact H.
Qed.

(** The effect of one loop iteration on the bucket under a live key [k]. *)
Lemma process_bucket_find mh now o db d k :
  d <> 0 -> live mh k ->
  exists db', process_bucket mh now o db d = Some db' /\
    find k db' =
    if accepted o && key_eqb (bucket_key_of now o d) k
    then Some (upsert k (trade_price_of o) (find k db))
    else find k db.
Proof.
  intros Hd Hlive. destruct (accepted o) eqn:A; simpl.
  - rewrite (process_bucket_accepted mh now o db d A Hd).
    eexists; split; [reflexivity | ].
    assert (Hp : forall db1,
      find k (prune mh (bucket_key_of now o d) d db1) = find k db1).
    { intros db1. destruct Hlive as [-> | Hc]; [reflexivity | ].
      apply find_prune. simpl.
      destruct (key_seconds k =? d) eqn:E.
      - apply N.eqb_eq in E; subst d.
        apply N.ltb_ge in Hc. rewrite Hc, andb_false_r; reflexivity.
      - rewrite andb_false_r; reflexivity. }
    rewrite Hp.
    destruct (key_eqb (bucket_key_of now o d) k) eqn:E.
    + apply key_eqb_eq in E. rewrite E.
      apply find_update_or_create_same.
    + apply key_eqb_neq in E.
      apply find_update_or_create_other. congruence.
  - rewrite (process_bucket_skipped mh now o db d A).
    eexists; split; reflexivity.
Qed.

(** ** Sequencing *)


Lemma for_each_total {A} (step : database -> A -> option database) l :
  (forall db x, In x l -> exists db', step db x = Some db') ->
  forall db, exists db', for_each step l db = Some db'.
Proof.
  induction l as [ | x rest IH]; intros Hstep db; simpl.
  - eexists; reflexivity.
  - destruct (Hstep db x (or_introl eq_refl)) as [db1 ->]; simpl.
    apply IH. intros db2 y Hy. apply Hstep. right; exact Hy.
Qed.

Lemma for_each_invariant {A} (I : database -> Prop)
    (step : database -> A -> option database) l :
  (forall db x db', In x l -> I db -> step db x = Some db' -> I db') ->
  forall db db', I db -> for_each step l db = Some db' -> I db'.
Proof.
  induction l as [ | x rest IH]; intros Hstep db db' Hdb; simpl.
  - intros [= <-]; exact Hdb.
  - destruct (step db x) as [db1 | ] eqn:E; simpl; [ | discriminate].
    apply IH.
    + intros db2 y db3 Hy. apply Hstep. right; exact Hy.
    + apply (Hstep db x db1 (or_introl eq_refl) Hdb E).
Qed.

(** ** One trade event, all bucket sizes *)

Lemma routes_key_eqb now o d k :
  accepted o && key_eqb (bucket_key_of now o d) k =
  routes now o k && (d =? key_seconds k).
Proof.
  unfold routes, key_eqb, bucket_key_of; simpl.
  destruct (accepted o); simpl; [ | reflexivity].
  destruct (asset_id (pays o) =? key_base k); simpl; [ | reflexivity].
  destruct (asset_id (receives o) =? key_quote k); simpl; [ | reflexivity].
  destruct (d =? key_seconds k) eqn:E; simpl.
  - apply N.eqb_eq in E; subst d. rewrite andb_true_r; reflexivity.
  - rewrite andb_false_r; reflexivity.
Qed.

Lemma existsb_eqb_in d l : existsb (N.eqb d) l = true <-> In d l.
Proof.
  rewrite existsb_exists. split.
  - intros [x [Hx E]]. apply N.eqb_eq in E; subst; exact Hx.
  - intros H. exists d; split; [exact H | apply N.eqb_refl].
Qed.

Lemma process_fill_order_find_buckets mh now o k buckets :
  NoDup buckets -> Forall (fun d => d <> 0) buckets -> live mh k ->
  forall db, exists db',
    for_each (process_bucket mh now o) buckets db = Some db' /\
    find k db' =
    if routes now o k && existsb (N.eqb (key_seconds k)) buckets
    then Some (upsert k (trade_price_of o) (find k db))
    else find k db.
Proof.
  intros Hnd Hnz Hlive.
  induction buckets as [ | d rest IH]; intros db; simpl.
  - exists db; split; [reflexivity | ]. rewrite andb_false_r; reflexivity.
  - inversion Hnd as [ | ? ? Hnotin Hnd']; subst.
    inversion Hnz as [ | ? ? Hd Hnz']; subst.
    destruct (process_bucket_find mh now o db d k Hd Hlive) as [db1 [E1 F1]].
    rewrite E1; simpl.
    destruct (IH Hnd' Hnz' db1) as [db' [E' F']].
    exists db'; split; [exact E' | ].
    rewrite F', F1, routes_key_eqb. rewrite (N.eqb_sym (key_seconds k) d).
    destruct (routes now o k); simpl; [ | reflexivity].
    destruct (d =? key_seconds k) eqn:E; simpl; [ | reflexivity].
    apply N.eqb_eq in E; subst d.
    destruct (existsb (N.eqb (key_seconds k)) rest) eqn:X; [ | reflexivity].
    apply existsb_eqb_in in X. contradiction.
Qed.

Lemma process_fill_order_find plugin now o k db :
  well_configured plugin -> tracked_live plugin k ->
  exists db', process_fill_order plugin now o db = Some db' /\
    find k db' =
    if routes now o k then Some (upsert k (trade_price_of o) (find k db))
    else find k db.
Proof.
  intros [Hnd Hnz] [Hin Hlive]. unfold process_fill_order.
  destruct (process_fill_order_find_buckets (max_history plugin) now o k
              (tracked_buckets plugin) Hnd Hnz Hlive db) as [db' [E F]].
  exists db'; split; [exact E | ].
  apply existsb_eqb_in in Hin. rewrite Hin, andb_true_r in F. exact F.
Qed.

(** ** All operations of a block, all blocks *)

Lemma routed_app k ps qs r : routed k (ps ++ qs) r = routed k qs (routed k ps r).
Proof. apply fold_left_app. Qed.

Lemma visit_find plugin now op k db :
  well_configured plugin -> tracked_live plugin k ->
  exists db', visit plugin now db op = Some db' /\
    find k db' = routed k (routed_prices now k [op]) (find k db).
Proof.
  intros Hc Hk. destruct op as [o | | | tag]; simpl;
    try (exists db; split; reflexivity).
  destruct (process_fill_order_find plugin now o k db Hc Hk) as [db' [E F]].
  exists db'; split; [exact E | ]. rewrite F.
  rewrite app_nil_r. destruct (routes now o k); reflexivity.
Qed.

Lemma visit_all_find plugin now ops k :
  well_configured plugin -> tracked_live plugin k ->
  forall db, exists db', for_each (visit plugin now) ops db = Some db' /\
    find k db' = routed k (routed_prices now k ops) (find k db).
Proof.
  intros Hc Hk. induction ops as [ | op rest IH]; intros db.
  - exists db; split; reflexivity.
  - destruct (visit_find plugin now op k db Hc Hk) as [db1 [E1 F1]].
    destruct (IH db1) as [db' [E' F']].
    exists db'. split.
    + simpl. rewrite E1; exact E'.
    + rewrite F', F1. change (op :: rest) with ([op] ++ rest).
      unfold routed_prices. rewrite flat_map_app. symmetry. apply routed_app.
Qed.

Lemma update_market_histories_find plugin b k db :
  well_configured plugin -> tracked_live plugin k -> max_history plugin <> 0 ->
  exists db', update_market_histories plugin db b = Some db' /\
    find k db' =
    routed k (routed_prices (timestamp b) k (applied_operations b)) (find k db).
Proof.
  intros Hc Hk Hmh. unfold update_market_histories.
  apply N.eqb_neq in Hmh. rewrite Hmh.
  destruct (tracked_buckets plugin) as [ | d rest] eqn:T.
  - destruct Hk as [Hin _]. rewrite T in Hin. destruct Hin.
  - replace (N.of_nat (length (d :: rest)) =? 0) with false
      by (symmetry; apply N.eqb_neq; simpl; lia).
    apply visit_all_find; assumption.
Qed.

Lemma replay_find plugin blocks k :
  well_configured plugin -> tracked_live plugin k -> max_history plugin <> 0 ->
  forall db, exists db', replay plugin blocks db = Some db' /\
    find k db' = routed k (routed_prices_blocks k blocks) (find k db).
Proof.
  intros Hc Hk Hmh. unfold replay.
  induction blocks as [ | b rest IH]; intros db.
  - exists db; split; reflexivity.
  - destruct (update_market_histories_find plugin b k db Hc Hk Hmh) as [db1 [E1 F1]].
    destruct (IH db1) as [db' [E' F']].
    exists db'. split.
    + simpl. rewrite E1; exact E'.
    + rewrite F', F1. unfold routed_prices_blocks; simpl.
      symmetry. apply routed_app.
Qed.

(** ** Totality and store-wide invariants *)

Lemma process_fill_order_total plugin now o db :
  Forall (fun d => d <> 0) (tracked_buckets plugin) ->
  exists db', process_fill_order plugin now o db = Some db'.
Proof.
  intros Hnz. unfold process_fill_order. apply for_each_total.
  intros db1 d Hd. apply process_bucket_total.
  rewrite Forall_forall in Hnz. exact (Hnz d Hd).
Qed.

Lemma visit_total plugin now db op :
  Forall (fun d => d <> 0) (tracked_buckets plugin) ->
  exists db', visit plugin now db op = Some db'.
Proof.
  intros Hnz. destruct op; simpl; try (eexists; reflexivity).
  apply process_fill_order_total; exact Hnz.
Qed.

Lemma update_market_histories_total plugin db b :
  Forall (fun d => d <> 0) (tracked_buckets plugin) ->
  exists db', update_market_histories plugin db b = Some db'.
Proof.
  intros Hnz. unfold update_market_histories.
  destruct (max_history plugin =? 0); [eexists; reflexivity | ].
  destruct (N.of_nat (length (tracked_buckets plugin)) =? 0);
    [eexists; reflexivity | ].
  apply for_each_total. intros db1 op _. apply visit_total; exact Hnz.
Qed.

Lemma replay_total plugin blocks db :
  Forall (fun d => d <> 0) (tracked_buckets plugin) ->
  exists db', replay plugin blocks db = Some db'.
Proof.
  intros Hnz. unfold replay. apply for_each_total.
  intros db1 b _. apply update_market_histories_total; exact Hnz.
Qed.

Section StoreInvariant.
Variable P : bucket_object -> Prop.
Variable Q : fill_order_operation -> Prop.
Hypothesis P_create : forall k o, Q o -> P (create_bucket k (trade_price_of o)).
Hypothesis P_update :
  forall o b, Q o -> P b -> P (update_bucket (trade_price_of o) b).

Lemma process_bucket_Forall mh now o db d db' :
  Q o -> Forall P db -> process_bucket mh now o db d = Some db' -> Forall P db'.
Proof.
  intros Ho Hdb. destruct (accepted o) eqn:A.
  - destruct (N.eq_dec d 0) as [-> | Hd].
    + unfold process_bucket. unfold accepted in A.
      apply negb_true_iff in A. rewrite A; simpl. discriminate.
    + rewrite (process_bucket_accepted mh now o db d A Hd). intros [= <-].
      apply Forall_prune. apply Forall_update_or_create; auto.
  - rewrite (process_bucket_skipped mh now o db d A). intros [= <-]; exact Hdb.
Qed.

Lemma visit_Forall plugin now db op db' :
  operation_holds Q op -> Forall P db -> visit plugin now db op = Some db' ->
  Forall P db'.
Proof.
  destruct op as [o | | | tag]; simpl; intros Ho Hdb;
    try (intros [= <-]; exact Hdb).
  unfold process_fill_order. apply for_each_invariant; [ | exact Hdb].
  intros db1 d db2 _ H1. apply process_bucket_Forall; assumption.
Qed.

Lemma update_market_histories_Forall plugin db b db' :
  block_holds Q b -> Forall P db ->
  update_market_histories plugin db b = Some db' -> Forall P db'.
Proof.
  unfold update_market_histories, block_holds. intros Hb Hdb.
  destruct (max_history plugin =? 0); [intros [= <-]; exact Hdb | ].
  destruct (N.of_nat (length (tracked_buckets plugin)) =? 0);
    [intros [= <-]; exact Hdb | ].
  apply for_each_invariant; [ | exact Hdb].
  intros db1 op db2 Hop H1. apply visit_Forall; [ | exact H1].
  rewrite Forall_forall in Hb. exact (Hb op Hop).
Qed.

Lemma replay_Forall plugin blocks db db' :
  Forall (block_holds Q) blocks -> Forall P db ->
  replay plugin blocks db = Some db' -> Forall P db'.
Proof.
  unfold replay. intros Hb Hdb. apply for_each_invariant; [ | exact Hdb].
  intros db1 b db2 Hin H1. apply update_market_histories_Forall; [ | exact H1].
  rewrite Forall_forall in Hb. exact (Hb b Hin).
Qed.
End StoreInvariant.

Lemma process_bucket_sorted mh now o db d db' :
  sorted db -> process_bucket mh now o db d = Some db' -> sorted db'.
Proof.
  intros Hdb. destruct (accepted o) eqn:A.
  - destruct (N.eq_dec d 0) as [-> | Hd].
    + unfold process_bucket. unfold accepted in A.
      apply negb_true_iff in A. rewrite A; simpl. discriminate.
    + rewrite (process_bucket_accepted mh now o db d A Hd). intros [= <-].
      apply prune_sorted. apply update_or_create_sorted; exact Hdb.
  - rewrite (process_bucket_skipped mh now o db d A). intros [= <-]; exact Hdb.
Qed.

Lemma replay_sorted plugin blocks db db' :
  sorted db -> replay plugin blocks db = Some db' -> sorted db'.
Proof.
  unfold replay. apply for_each_invariant.
  intros db1 b db2 _ H1. unfold update_market_histories.
  destruct (max_history plugin =? 0); [intros [= <-]; exact H1 | ].
  destruct (N.of_nat (length (tracked_buckets plugin)) =? 0);
    [intros [= <-]; exact H1 | ].
  revert H1. apply for_each_invariant.
  intros db3 op db4 _ H3. destruct op as [o | | | tag]; simpl;
    try (intros [= <-]; exact H3).
  revert H3. unfold process_fill_order. apply for_each_invariant.
  intros db5 d db6 _. apply process_bucket_sorted.
Qed.

(** ** Prices *)

(** On non-negative amounts the cross-multiplied comparison is transitive. *)
Lemma price_lt_trans a b c :
  price_nonneg a -> price_nonneg b -> price_nonneg c ->
  price_lt a b = true -> price_lt b c = true -> price_lt a c = true.
Proof.
  unfold price_nonneg, price_lt.
  destruct a as [[ab ?] [aq ?]], b as [[bb ?] [bq ?]], c as [[cb ?] [cq ?]]; simpl.
  intros [Ha1 Ha2] [Hb1 Hb2] [Hc1 Hc2] H1 H2.
  apply Z.ltb_lt in H1, H2. apply Z.ltb_lt.
  assert (0 < aq)%Z by nia. assert (0 < bb)%Z by nia.
  assert (0 < bq)%Z by nia. assert (0 < cb)%Z by nia.
  apply (Z.mul_lt_mono_pos_r bb); [assumption | ].
  assert (cq * bb * ab <= bq * cb * ab)%Z by nia.
  assert (bq * ab * cb < aq * bb * cb)%Z by nia.
  nia.
Qed.

(** ** Bucket records *)

Lemma cross_lt_trans (ab aq bb bq cb cq : Z) :
  (0 <= ab -> 0 <= aq -> 0 <= bb -> 0 <= bq -> 0 <= cb -> 0 <= cq ->
   bq * ab < aq * bb -> cq * bb < bq * cb -> cq * ab < aq * cb)%Z.
Proof.
  intros Hab Haq Hbb Hbq Hcb Hcq H1 H2.
  pose proof (price_lt_trans
                (mk_price (mk_asset ab 0) (mk_asset aq 0))
                (mk_price (mk_asset bb 0) (mk_asset bq 0))
                (mk_price (mk_asset cb 0) (mk_asset cq 0))) as T.
  unfold price_nonneg, price_lt in T; simpl in T.
  rewrite !Z.ltb_lt in T. apply T; auto.
Qed.

Lemma create_bucket_invariant k p : ohlc_invariant (create_bucket k p) = true.
Proof.
  unfold ohlc_invariant, price_ge, price_le, price_lt; simpl.
  rewrite !Z.ltb_irrefl; reflexivity.
Qed.

Lemma create_bucket_nonneg k p : price_nonneg p -> bucket_nonneg (create_bucket k p).
Proof.
  intros [H1 H2]. repeat split; assumption.
Qed.

Lemma update_bucket_nonneg p b :
  price_nonneg p -> bucket_nonneg b -> bucket_nonneg (update_bucket p b).
Proof.
  unfold price_nonneg, bucket_nonneg, update_bucket, high, low, open_price,
    close_price.
  intros [Hp1 Hp2] [[? ?] [[? ?] [[? ?] [? ?]]]].
  repeat match goal with |- context [if ?c then _ else _] => destruct c end;
    repeat split; assumption.
Qed.

Lemma update_bucket_invariant p b :
  price_nonneg p -> bucket_nonneg b -> ohlc_invariant b = true ->
  ohlc_invariant (update_bucket p b) = true.
Proof.
  destruct p as [[pb ?] [pq ?]].
  destruct b as [k hb hq lb lq ob oq cb cq bv qv].
  unfold price_nonneg, bucket_nonneg, ohlc_invariant, update_bucket,
    price_ge, price_le, price_gt, price_lt, high, low, open_price, close_price,
    asset_div; simpl.
  intros [Hp1 Hp2] [[? ?] [[? ?] [[? ?] [? ?]]]] I. simpl in *.
  bool_prop. destruct I as [[[[[I1 I2] I3] I4] I5] I6].
  destruct (Z.ltb_spec (pq * hb) (hq * pb)); simpl;
    destruct (Z.ltb_spec (lq * pb) (pq * lb)); simpl; bool_prop.
  all: repeat split; try lia.
  all: apply Z.nlt_ge; intro;
    pose proof (cross_lt_trans hb hq pb pq ob oq);
    pose proof (cross_lt_trans ob oq pb pq lb lq);
    lia.
Qed.

(** ** Volumes *)

Lemma update_bucket_volumes p b :
  base_volume (update_bucket p b) = (base_volume b + amount (base p))%Z /\
  quote_volume (update_bucket p b) = (quote_volume b + amount (quote p))%Z.
Proof.
  unfold update_bucket.
  repeat match goal with |- context [if ?c then _ else _] => destruct c end;
    simpl; split; reflexivity.
Qed.

Lemma upsert_volumes k p r :
  volumes_of (Some (upsert k p r)) =
  (fst (volumes_of r) + amount (base p), snd (volumes_of r) + amount (quote p))%Z.
Proof.
  destruct r as [b | ]; simpl.
  - destruct (update_bucket_volumes p b) as [-> ->]; reflexivity.
  - reflexivity.
Qed.

Lemma routed_volumes k ps r :
  volumes_of (routed k ps r) =
  (fst (volumes_of r) + total_base ps, snd (volumes_of r) + total_quote ps)%Z.
Proof.
  revert r. induction ps as [ | p rest IH]; intros r.
  - unfold routed, total_base, total_quote; simpl.
    rewrite !Z.add_0_r. destruct (volumes_of r); reflexivity.
  - change (routed k (p :: rest) r) with (routed k rest (Some (upsert k p r))).
    rewrite IH, upsert_volumes. unfold total_base, total_quote; simpl.
    f_equal; lia.
Qed.

Lemma total_base_app ps qs : total_base (ps ++ qs) = (total_base ps + total_base qs)%Z.
Proof.
  unfold total_base. induction ps as [ | p rest IH]; simpl; [reflexivity | ].
  rewrite IH; lia.
Qed.

Lemma total_quote_app ps qs :
  total_quote (ps ++ qs) = (total_quote ps + total_quote qs)%Z.
Proof.
  unfold total_quote. induction ps as [ | p rest IH]; simpl; [reflexivity | ].
  rewrite IH; lia.
Qed.

Lemma total_nonneg ps :
  Forall price_nonneg ps -> (0 <= total_base ps /\ 0 <= total_quote ps)%Z.
Proof.
  unfold total_base, total_quote.
  induction 1 as [ | p rest [Hp1 Hp2] Hrest [IH1 IH2]]; simpl; lia.
Qed.

Lemma routed_prices_nonneg now k ops :
  Forall (operation_holds fill_nonneg) ops ->
  Forall price_nonneg (routed_prices now k ops).
Proof.
  induction 1 as [ | op rest Hop Hrest IH]; simpl; [constructor | ].
  apply Forall_app; split; [ | exact IH].
  destruct op as [o | | | tag]; try constructor.
  destruct (routes now o k); constructor; [exact Hop | constructor].
Qed.

Lemma routed_prices_blocks_nonneg k blocks :
  Forall (block_holds fill_nonneg) blocks ->
  Forall price_nonneg (routed_prices_blocks k blocks).
Proof.
  induction 1 as [ | b rest Hb Hrest IH]; simpl; [constructor | ].
  apply Forall_app; split; [ | exact IH].
  apply routed_prices_nonneg; exact Hb.
Qed.

Lemma routed_prices_blocks_app k bs cs :
  routed_prices_blocks k (bs ++ cs) =
  routed_prices_blocks k bs ++ routed_prices_blocks k cs.
Proof. apply flat_map_app. Qed.

(** ** The tracked set *)

Lemma flat_set_insert_sorted x s :
  StronglySorted N.lt s -> StronglySorted N.lt (flat_set_insert x s).
Proof.
  induction 1 as [ | y rest S IH Hy]; simpl.
  - repeat constructor.
  - destruct (N.ltb_spec x y) as [L | L].
    + constructor; [constructor; assumption | ].
      constructor; [exact L | ].
      eapply Forall_impl; [ | exact Hy]. intros z Hz; lia.
    + destruct (N.eqb_spec x y) as [E | E].
      * constructor; assumption.
      * constructor; [exact IH | ].
        clear IH S. induction Hy as [ | z rest' Hz Hrest IH']; simpl.
        -- constructor; [lia | constructor].
        -- destruct (x <? z); [ | destruct (x =? z)];
             repeat constructor; auto; lia.
Qed.

Lemma sorted_lt_NoDup s : StronglySorted N.lt s -> NoDup s.
Proof.
  induction 1 as [ | y rest S IH Hy]; constructor; [ | exact IH].
  intros Hin. rewrite Forall_forall in Hy. specialize (Hy y Hin). lia.
Qed.

Lemma flat_set_insert_in x s y : In y (flat_set_insert x s) <-> y = x \/ In y s.
Proof.
  induction s as [ | z rest IH]; simpl.
  - intuition.
  - destruct (N.ltb_spec x z); simpl; [intuition | ].
    destruct (N.eqb_spec x z); simpl; [subst; intuition | ].
    rewrite IH; intuition.
Qed.

(** [plugin_initialize] always yields a duplicate-free tracked set; it holds
    exactly the configured sizes. *)
Lemma plugin_initialize_tracked bucket_size history_per_size :
  NoDup (tracked_buckets (plugin_initialize bucket_size history_per_size)) /\
  forall d, In d (tracked_buckets (plugin_initialize bucket_size history_per_size))
            <-> In d bucket_size.
Proof.
  unfold plugin_initialize; simpl.
  assert (G : forall l s, StronglySorted N.lt s ->
    StronglySorted N.lt (fold_left (fun s o => flat_set_insert o s) l s) /\
    forall d, In d (fold_left (fun s o => flat_set_insert o s) l s) <->
              In d l \/ In d s).
  { induction l as [ | o rest IH]; intros s Hs; simpl.
    - split; [exact Hs | intuition].
    - destruct (IH (flat_set_insert o s) (flat_set_insert_sorted o s Hs)) as [S I].
      split; [exact S | ]. intros d. rewrite I, flat_set_insert_in. intuition. }
  destruct (G bucket_size [] (SSorted_nil _)) as [S I].
  split; [apply sorted_lt_NoDup; exact S | ].
  intros d. rewrite I. simpl. intuition.
Qed.

(** * The claims *)

(** C9.  Processing an operation that is not a trade-fill variant (witness
    creation and witness pay withdrawal included) leaves the bucket store
    unchanged: the visitor returns the store it was given. *)
Theorem non_fill_operation_ignored plugin now db op :
  is_fill_order op = false -> visit plugin now db op = Some db.
Proof.
  destruct op; simpl; intros H; [discriminate | reflexivity ..].
Qed.

Lemma non_fill_operation_ignored_witness :
  is_fill_order witness_create = false /\
  visit (mk_plugin [60; 3600] 1000) 1500000000 [] witness_create = Some [].
Proof.
  split; [reflexivity | ].
  apply (non_fill_operation_ignored (mk_plugin [60; 3600] 1000) 1500000000 []
           witness_create).
  reflexivity.
Defined.

(** A block without trade-fill operations leaves the store unchanged. *)
Lemma non_fill_block_ignored plugin db b :
  forallb (fun op => negb (is_fill_order op)) (applied_operations b) = true ->
  update_market_histories plugin db b = Some db.
Proof.
  unfold update_market_histories. intros H.
  destruct (max_history plugin =? 0); [reflexivity | ].
  destruct (N.of_nat (length (tracked_buckets plugin)) =? 0); [reflexivity | ].
  induction (applied_operations b) as [ | op rest IH]; simpl in *; [reflexivity | ].
  apply andb_true_iff in H. destruct H as [Hop Hrest].
  apply negb_true_iff in Hop.
  destruct op; simpl in *; try discriminate; exact (IH Hrest).
Qed.



(** C10.  A fill event whose pays and receives asset ids are equal passes the
    duplicate filter (the skip condition is the strict [base > quote]), and so
    does its mirror image; both get the same key.  For every tracked size
    whose bucket is not pruned, the first event alone leaves a bucket holding
    that trade's amounts, and the two symmetric events together leave the
    bucket updated a second time, its volumes being the sums over both
    events: the one trade is counted twice. *)
Theorem equal_asset_ids_counted_twice plugin now A B d db :
  asset_id (pays A) = asset_id (receives A) ->
  pays B = receives A -> receives B = pays A ->
  well_configured plugin -> In d (tracked_buckets plugin) ->
  live (max_history plugin) (bucket_key_of now A d) ->
  find (bucket_key_of now A d) db = None ->
  let k := bucket_key_of now A d in
  accepted A = true /\ accepted B = true /\ bucket_key_of now B d = k /\
  exists db1 db2,
    for_each (visit plugin now) [fill_order A] db = Some db1 /\
    find k db1 = Some (create_bucket k (trade_price_of A)) /\
    base_volume_at k db1 = amount (pays A) /\
    quote_volume_at k db1 = amount (receives A) /\
    for_each (visit plugin now) [fill_order A; fill_order B] db = Some db2 /\
    find k db2 =
      Some (update_bucket (trade_price_of B) (create_bucket k (trade_price_of A))) /\
    base_volume_at k db2 = (amount (pays A) + amount (pays B))%Z /\
    quote_volume_at k db2 = (amount (receives A) + amount (receives B))%Z.
Proof.
  intros Hid HpB HrB Hc Hin Hlive F k.
  assert (AA : accepted A = true).
  { unfold accepted. rewrite Hid, N.ltb_irrefl; reflexivity. }
  assert (AB : accepted B = true).
  { unfold accepted. rewrite HpB, HrB, Hid, N.ltb_irrefl; reflexivity. }
  assert (KB : bucket_key_of now B d = k).
  { unfold k, bucket_key_of. rewrite HpB, HrB, Hid; reflexivity. }
  assert (RA : routes now A k = true).
  { unfold routes, k, bucket_key_of; simpl. rewrite AA, !N.eqb_refl; reflexivity. }
  assert (RB : routes now B k = true).
  { rewrite <- KB. unfold routes, bucket_key_of; simpl.
    rewrite AB, !N.eqb_refl; reflexivity. }
  assert (TL : tracked_live plugin k) by (split; [exact Hin | exact Hlive]).
  split; [exact AA | ]. split; [exact AB | ]. split; [exact KB | ].
  destruct (visit_all_find plugin now [fill_order A] k Hc TL db) as [db1 [E1 F1]].
  destruct (visit_all_find plugin now [fill_order A; fill_order B] k Hc TL db)
    as [db2 [E2 F2]].
  unfold routed_prices in F1, F2. simpl in F1, F2.
  rewrite RA in F1, F2. rewrite RB in F2. fold k in F. rewrite F in F1, F2.
  simpl in F1, F2.
  exists db1, db2. split; [exact E1 | ]. split; [exact F1 | ].
  unfold base_volume_at, quote_volume_at. rewrite F1, F2.
  split; [reflexivity | ]. split; [reflexivity | ].
  split; [exact E2 | ]. split; [reflexivity | ].
  destruct (update_bucket_volumes (trade_price_of B)
              (create_bucket k (trade_price_of A))) as [-> ->].
  split; reflexivity.
Qed.

Lemma equal_asset_ids_counted_twice_witness :
  let plugin := mk_plugin [60] 1000 in
  let A := mk_fill (mk_asset 5 7) (mk_asset 3 7) in
  let B := mk_fill (mk_asset 3 7) (mk_asset 5 7) in
  let k := mk_key 7 7 60 1500000000 in
  exists db1 db2,
    for_each (visit plugin 1500000000) [fill_order A] [] = Some db1 /\
    find k db1 = Some (create_bucket k (trade_price_of A)) /\
    base_volume_at k db1 = 5%Z /\
    quote_volume_at k db1 = 3%Z /\
    for_each (visit plugin 1500000000) [fill_order A; fill_order B] [] = Some db2 /\
    find k db2 =
      Some (update_bucket (trade_price_of B) (create_bucket k (trade_price_of A))) /\
    base_volume_at k db2 = (5 + 3)%Z /\
    quote_volume_at k db2 = (3 + 5)%Z.
Proof.
  intros plugin A B k.
  refine (proj2 (proj2 (proj2 (equal_asset_ids_counted_twice
                                 plugin 1500000000 A B 60 [] _ _ _ _ _ _ _)))).
  - reflexivity.
  - reflexivity.
  - reflexivity.
  - split; [repeat constructor; simpl; tauto | repeat constructor; discriminate].
  - left; reflexivity.
  - right; discriminate.
  - reflexivity.
Defined.

(** C1.  The spec places the eviction cutoff at [now - d * max_history].  The
    code computes the cutoff from the epoch instead of from the block time
    (source line 83), so a bucket that is 61 intervals old is still in the
    store after the next update of its market: with [bucket_seconds = 60] and
    [max_history = 3], the bucket opened at [now - 61 * 60] survives the
    update at [now], although it lies before [now - 60 * 3]. *)
Theorem stale_bucket_survives_update :
  let plugin := mk_plugin [60] 3 in
  let trade := fill_order (mk_fill (mk_asset 2 1) (mk_asset 1 2)) in
  let now := 1500000000 in
  let stale := mk_key 1 2 60 (now - 61 * 60) in
  cutoff_of 60 3 = 180 /\
  (key_open stale <? now - 60 * 3) = true /\
  exists db1 db2,
    update_market_histories plugin [] (mk_block (now - 61 * 60) [trade]) = Some db1 /\
    find stale db1 = Some (create_bucket stale (mk_price (mk_asset 2 1) (mk_asset 1 2))) /\
    update_market_histories plugin db1 (mk_block now [trade]) = Some db2 /\
    find stale db2 = find stale db1 /\
    length db2 = 2%nat.
Proof.
  cbv zeta. split; [reflexivity | ]. split; [reflexivity | ].
  eexists. eexists.
  split; [vm_compute; reflexivity | ].
  split; [reflexivity | ].
  split; [vm_compute; reflexivity | ].
  split; reflexivity.
Qed.

(** C2, as stated, fails: with [max_history = 0] the block callback returns
    before visiting any operation, so an accepted trade of the block is not
    aggregated into any bucket. *)
Lemma max_history_zero_not_aggregated :
  ~ (forall plugin db b o d,
       max_history plugin = 0 ->
       In (fill_order o) (applied_operations b) -> accepted o = true ->
       In d (tracked_buckets plugin) -> d <> 0 ->
       exists db', update_market_histories plugin db b = Some db' /\
                   find (bucket_key_of (timestamp b) o d) db' <> None).
Proof.
  intros H.
  destruct (H (mk_plugin [60] 0) []
              (mk_block 1500000000 [fill_order (mk_fill (mk_asset 2 1) (mk_asset 1 2))])
              (mk_fill (mk_asset 2 1) (mk_asset 1 2)) 60)
    as [db' [E F]].
  - reflexivity.
  - left; reflexivity.
  - reflexivity.
  - left; reflexivity.
  - discriminate.
  - vm_compute in E. injection E as <-. apply F. reflexivity.
Qed.

Lemma process_bucket_max_history_zero now o db d :
  d <> 0 ->
  exists db', process_bucket 0 now o db d = Some db' /\
    (forall k, find k db <> None -> find k db' <> None) /\
    (accepted o = true -> find (bucket_key_of now o d) db' <> None).
Proof.
  intros Hd. destruct (accepted o) eqn:A.
  - rewrite (process_bucket_accepted 0 now o db d A Hd).
    eexists; split; [reflexivity | ]. unfold prune; simpl. split.
    + intros k Hk.
      destruct (key_eqb (bucket_key_of now o d) k) eqn:E.
      * apply key_eqb_eq in E. rewrite <- E, find_update_or_create_same.
        discriminate.
      * apply key_eqb_neq in E. rewrite find_update_or_create_other;
          [exact Hk | congruence].
    + intros _. rewrite find_update_or_create_same. discriminate.
  - rewrite (process_bucket_skipped 0 now o db d A).
    eexists; split; [reflexivity | ]. split; [auto | discriminate].
Qed.

(** C2, amended.  With [max_history = 0] the block callback returns at once:
    the store is left as it was, so no record is evicted and no trade event
    is aggregated.  In the per-operation handler taken by itself,
    [max_history = 0] disables only the eviction step: every record stays,
    and an accepted trade gets a bucket for every tracked bucket size. *)
Theorem max_history_zero_block_skipped plugin db b :
  max_history plugin = 0 ->
  update_market_histories plugin db b = Some db /\
  (Forall (fun d => d <> 0) (tracked_buckets plugin) ->
   forall now o, exists db',
     process_fill_order plugin now o db = Some db' /\
     (forall k, find k db <> None -> find k db' <> None) /\
     (accepted o = true ->
      forall d, In d (tracked_buckets plugin) ->
                find (bucket_key_of now o d) db' <> None)).
Proof.
  intros Hmh. split.
  - unfold update_market_histories. rewrite Hmh; reflexivity.
  - intros Hnz now o. unfold process_fill_order. rewrite Hmh.
    revert db. induction Hnz as [ | d rest Hd Hrest IH]; intros db; simpl.
    + exists db. split; [reflexivity | ]. split; [auto | ].
      intros _ d [].
    + destruct (process_bucket_max_history_zero now o db d Hd) as [db1 [E1 [K1 N1]]].
      rewrite E1; simpl.
      destruct (IH db1) as [db' [E' [K' N']]].
      exists db'. split; [exact E' | ]. split.
      * intros k Hk. apply K', K1, Hk.
      * intros A d' [<- | Hin]; [apply K', N1, A | apply N'; assumption].
Qed.

Lemma max_history_zero_block_skipped_witness :
  max_history (mk_plugin [60] 0) = 0 /\
  update_market_histories (mk_plugin [60] 0) []
    (mk_block 1500000000 [fill_order (mk_fill (mk_asset 2 1) (mk_asset 1 2))]) =
  Some [].
Proof.
  split; [reflexivity | ].
  refine (proj1 (max_history_zero_block_skipped (mk_plugin [60] 0) []
                   (mk_block 1500000000
                      [fill_order (mk_fill (mk_asset 2 1) (mk_asset 1 2))]) _)).
  reflexivity.
Defined.

(** For a 32-bit block time the slot computation does not wrap. *)
Lemma open_of_floor now d :
  now < 4294967296 -> d <> 0 -> open_of now d = now / d * d.
Proof.
  intros Hnow Hd. unfold open_of, wrap32. apply N.mod_small.
  pose proof (N.Div0.mul_div_le now d) as H. lia.
Qed.

(** The slot is a multiple of the bucket size, holds [now], and is one bucket
    size wide. *)
Lemma open_of_bounds now d :
  now < 4294967296 -> d <> 0 ->
  open_of now d mod d = 0 /\ open_of now d <= now < open_of now d + d.
Proof.
  intros Hnow Hd. rewrite (open_of_floor now d Hnow Hd). split.
  - apply N.Div0.mod_mul.
  - pose proof (N.Div0.mul_div_le now d).
    pose proof (N.mul_succ_div_gt now d Hd). lia.
Qed.

(** C5.  For an accepted fill event at block time [now] and tracked bucket
    size [d], the slot is [open_time = floor(now / d) * d] under the key
    [(base, quote, d, open_time)]; when the store holds no record under that
    key, a new record is created there with open = close = high = low = trade
    price and with the trade's base and quote amounts as volumes. *)
Theorem absent_bucket_created mh now o d db :
  now < 4294967296 -> d <> 0 -> accepted o = true ->
  let k := mk_key (asset_id (pays o)) (asset_id (receives o)) d (now / d * d) in
  let b := {| key := k;
              high_base := amount (pays o); high_quote := amount (receives o);
              low_base := amount (pays o); low_quote := amount (receives o);
              open_base := amount (pays o); open_quote := amount (receives o);
              close_base := amount (pays o); close_quote := amount (receives o);
              base_volume := amount (pays o);
              quote_volume := amount (receives o) |} in
  find k db = None ->
  bucket_key_of now o d = k /\
  process_bucket mh now o db d = Some (prune mh k d (create b db)) /\
  find k (create b db) = Some b /\
  (live mh k -> exists db', process_bucket mh now o db d = Some db' /\
                            find k db' = Some b).
Proof.
  intros Hnow Hd A k b F.
  assert (K : bucket_key_of now o d = k).
  { unfold bucket_key_of, k. rewrite (open_of_floor now d Hnow Hd); reflexivity. }
  assert (P : process_bucket mh now o db d = Some (prune mh k d (create b db))).
  { rewrite (process_bucket_accepted mh now o db d A Hd), K.
    unfold update_or_create. rewrite F. reflexivity. }
  split; [exact K | ]. split; [exact P | ]. split.
  - apply (find_create_same b db).
  - intros Hlive.
    destruct (process_bucket_find mh now o db d k Hd Hlive) as [db' [E' F']].
    exists db'. split; [exact E' | ].
    rewrite F', A, K, key_eqb_refl, F. reflexivity.
Qed.

Lemma absent_bucket_created_witness :
  let o := mk_fill (mk_asset 2 1) (mk_asset 1 2) in
  let k := mk_key 1 2 60 1499999940 in
  process_bucket 1000 1499999999 o [] 60 =
  Some (prune 1000 k 60 (create (mk_bucket k 2 1 2 1 2 1 2 1 2 1) [])).
Proof.
  intros o k.
  refine (proj1 (proj2 (absent_bucket_created 1000 1499999999 o 60 [] _ _ _ _)));
    [reflexivity | discriminate | reflexivity | reflexivity].
Defined.

(** C4.  For an accepted fill event whose key already has a record [b], the
    record is updated in place: close becomes the trade price, the trade's
    base and quote amounts are added to the volumes, high is replaced exactly
    when [high() < trade price], low exactly when [trade price < low()] (both
    by cross-multiplication), and open and the key are left alone.  Trades at
    [2/1, 3/1, 1/1, 5/2] in one bucket leave open [2/1], close [5/2], high
    [3/1] and low [1/1]. *)
Theorem existing_bucket_updated_in_place mh now o d db b :
  accepted o = true -> d <> 0 ->
  find (bucket_key_of now o d) db = Some b ->
  let k := bucket_key_of now o d in
  let p := trade_price_of o in
  let b' := update_bucket p b in
  process_bucket mh now o db d = Some (prune mh k d (modify k (update_bucket p) db)) /\
  find k (modify k (update_bucket p) db) = Some b' /\
  key b' = key b /\
  (close_base b', close_quote b') = (amount (pays o), amount (receives o)) /\
  base_volume b' = (base_volume b + amount (pays o))%Z /\
  quote_volume b' = (quote_volume b + amount (receives o))%Z /\
  (high_base b', high_quote b') =
    (if price_lt (high b) p then (amount (pays o), amount (receives o))
     else (high_base b, high_quote b)) /\
  (low_base b', low_quote b') =
    (if price_lt p (low b) then (amount (pays o), amount (receives o))
     else (low_base b, low_quote b)) /\
  (open_base b', open_quote b') = (open_base b, open_quote b) /\
  update_market_histories (mk_plugin [60] 1000) []
    (mk_block 1500000000
       [fill_order (mk_fill (mk_asset 2 1) (mk_asset 1 2));
        fill_order (mk_fill (mk_asset 3 1) (mk_asset 1 2));
        fill_order (mk_fill (mk_asset 1 1) (mk_asset 1 2));
        fill_order (mk_fill (mk_asset 5 1) (mk_asset 2 2))]) =
  Some [ {| key := mk_key 1 2 60 1500000000;
            high_base := 3; high_quote := 1;
            low_base := 1; low_quote := 1;
            open_base := 2; open_quote := 1;
            close_base := 5; close_quote := 2;
            base_volume := 11; quote_volume := 5 |} ].
Proof.
  intros A Hd F k p b'. subst k.
  split.
  { rewrite (process_bucket_accepted mh now o db d A Hd).
    unfold update_or_create. rewrite F. reflexivity. }
  split.
  { apply find_modify_same; [apply update_bucket_key | exact F]. }
  split; [apply update_bucket_key | ].
  subst b' p. clear F A.
  destruct o as [[pa pi] [ra ri]].
  destruct b as [kb hb hq lb lq ob oq cb cq bv qv].
  unfold update_bucket, trade_price_of, price_gt, price_lt, high, low, asset_div;
    simpl.
  destruct (ra * hb <? hq * pa)%Z; simpl;
    destruct (lq * pa <? ra * lb)%Z; simpl; repeat split; reflexivity.
Qed.

Lemma existing_bucket_updated_in_place_witness :
  let o := mk_fill (mk_asset 3 1) (mk_asset 1 2) in
  let k := mk_key 1 2 60 1500000000 in
  let b := mk_bucket k 2 1 2 1 2 1 2 1 2 1 in
  find (bucket_key_of 1500000000 o 60) [b] = Some b /\
  find k (modify k (update_bucket (trade_price_of o)) [b]) =
  Some (mk_bucket k 3 1 2 1 2 1 3 1 5 2).
Proof.
  intros o k b. split; [reflexivity | ].
  refine (proj1 (proj2 (existing_bucket_updated_in_place
                          1000 1500000000 o 60 [b] b _ _ _)));
    [reflexivity | discriminate | reflexivity].
Defined.

(** C6.  The volumes of a bucket record are the sums of the base and quote
    amounts of the trades routed into it, for any number of trades; with
    non-negative trade amounts they never decrease.  In the store: for a
    tracked key that is not pruned, replaying any blocks from a store
    without the record leaves under that key the sums over the trades of the
    blocks that land in its slot, and further blocks only add to them. *)
Theorem volumes_accumulate k :
  (forall ps, volumes_of (routed k ps None) = (total_base ps, total_quote ps)) /\
  (forall p b, price_nonneg p ->
     (base_volume b <= base_volume (update_bucket p b) /\
      quote_volume b <= quote_volume (update_bucket p b))%Z) /\
  (forall plugin,
     well_configured plugin -> tracked_live plugin k -> max_history plugin <> 0 ->
     (forall db blocks, find k db = None ->
        exists db', replay plugin blocks db = Some db' /\
          base_volume_at k db' = total_base (routed_prices_blocks k blocks) /\
          quote_volume_at k db' = total_quote (routed_prices_blocks k blocks)) /\
     (forall db blocks more, Forall (block_holds fill_nonneg) more ->
        exists db' db'',
          replay plugin blocks db = Some db' /\
          replay plugin (blocks ++ more) db = Some db'' /\
          (base_volume_at k db' <= base_volume_at k db'' /\
           quote_volume_at k db' <= quote_volume_at k db'')%Z)).
Proof.
  assert (V : forall db, volumes_of (find k db) = (base_volume_at k db, quote_volume_at k db)).
  { intros db. unfold base_volume_at, quote_volume_at.
    destruct (find k db); reflexivity. }
  split; [ | split].
  - intros ps. rewrite routed_volumes. reflexivity.
  - intros p b [Hp1 Hp2].
    destruct (update_bucket_volumes p b) as [-> ->]. lia.
  - intros plugin Hc Hk Hmh. split.
    + intros db blocks F.
      destruct (replay_find plugin blocks k Hc Hk Hmh db) as [db' [E' F']].
      exists db'. split; [exact E' | ].
      pose proof (V db') as V'. rewrite F', routed_volumes, F in V'.
      simpl in V'. injection V' as <- <-. split; reflexivity.
    + intros db blocks more Hmore.
      destruct (replay_find plugin blocks k Hc Hk Hmh db) as [db' [E' F']].
      destruct (replay_find plugin (blocks ++ more) k Hc Hk Hmh db)
        as [db'' [E'' F'']].
      exists db', db''. split; [exact E' | ]. split; [exact E'' | ].
      pose proof (V db') as V'. rewrite F', routed_volumes in V'.
      pose proof (V db'') as V''.
      rewrite F'', routed_volumes, routed_prices_blocks_app,
        total_base_app, total_quote_app in V''.
      injection V' as <- <-. injection V'' as <- <-.
      destruct (total_nonneg _ (routed_prices_blocks_nonneg k more Hmore)). lia.
Qed.

Lemma volumes_accumulate_witness :
  let plugin := mk_plugin [60; 3600] 1000 in
  let k := mk_key 1 2 60 1500000000 in
  let trade := fill_order (mk_fill (mk_asset 2 1) (mk_asset 1 2)) in
  let blocks := [mk_block 1500000000 [trade; trade]; mk_block 1500000030 [trade]] in
  well_configured plugin /\ tracked_live plugin k /\ max_history plugin <> 0 /\
  find k [] = None /\
  exists db', replay plugin blocks [] = Some db' /\
    base_volume_at k db' = total_base (routed_prices_blocks k blocks) /\
    quote_volume_at k db' = total_quote (routed_prices_blocks k blocks).
Proof.
  intros plugin k trade blocks.
  assert (Hc : well_configured plugin).
  { split.
    - constructor; [simpl; intros [H | []]; discriminate | ].
      constructor; [simpl; tauto | constructor].
    - repeat constructor; discriminate. }
  assert (Hk : tracked_live plugin k).
  { split; [left; reflexivity | right; discriminate]. }
  assert (Hmh : max_history plugin <> 0) by discriminate.
  split; [exact Hc | ]. split; [exact Hk | ]. split; [exact Hmh | ].
  split; [reflexivity | ].
  exact (proj1 (proj2 (proj2 (volumes_accumulate k)) plugin Hc Hk Hmh)
           [] blocks eq_refl).
Defined.

(** C7.  Every bucket record satisfies [high() >= open, close, low()] and
    [low() <= open, close, high()] under the cross-multiplied comparison: the
    invariant holds for a newly created record, every in-place update with
    non-negative amounts preserves it, and so every record of a store
    replayed from the empty store satisfies it. *)
Theorem ohlc_invariant_holds plugin blocks :
  Forall (fun d => d <> 0) (tracked_buckets plugin) ->
  Forall (block_holds fill_nonneg) blocks ->
  (forall k p, ohlc_invariant (create_bucket k p) = true) /\
  (forall p b, price_nonneg p -> bucket_nonneg b -> ohlc_invariant b = true ->
               bucket_nonneg (update_bucket p b) /\
               ohlc_invariant (update_bucket p b) = true) /\
  exists db, replay plugin blocks [] = Some db /\
             Forall (fun b => ohlc_invariant b = true) db.
Proof.
  intros Hnz Hb.
  split; [apply create_bucket_invariant | ]. split.
  - intros p b Hp Hn Hi. split.
    + apply update_bucket_nonneg; assumption.
    + apply update_bucket_invariant; assumption.
  - destruct (replay_total plugin blocks [] Hnz) as [db E].
    exists db. split; [exact E | ].
    assert (G : Forall (fun b => bucket_nonneg b /\ ohlc_invariant b = true) db).
    { apply (replay_Forall (fun b => bucket_nonneg b /\ ohlc_invariant b = true)
               fill_nonneg) with (plugin := plugin) (blocks := blocks) (db := []).
      - intros k o Ho. split.
        + apply create_bucket_nonneg. exact Ho.
        + apply create_bucket_invariant.
      - intros o b Ho [Hn Hi]. split.
        + apply update_bucket_nonneg; assumption.
        + apply update_bucket_invariant; assumption.
      - exact Hb.
      - constructor.
      - exact E. }
    eapply Forall_impl; [ | exact G]. intros b [_ Hi]; exact Hi.
Qed.

Lemma ohlc_invariant_holds_witness :
  let plugin := mk_plugin [60] 1000 in
  let blocks :=
    [mk_block 1500000000
       [fill_order (mk_fill (mk_asset 2 1) (mk_asset 1 2));
        fill_order (mk_fill (mk_asset 3 1) (mk_asset 1 2))]] in
  exists db, replay plugin blocks [] = Some db /\
             Forall (fun b => ohlc_invariant b = true) db.
Proof.
  intros plugin blocks.
  refine (proj2 (proj2 (ohlc_invariant_holds plugin blocks _ _))).
  - repeat constructor; discriminate.
  - repeat constructor; simpl; discriminate.
Defined.

(** * Further properties of the plugin *)

(** ** Pruning *)

Lemma prune_filter mh o now d db :
  mh <> 0 -> sorted db ->
  prune mh (bucket_key_of now o d) d db =
  filter (fun x => negb (pruned_by mh o d x)) db.
Proof.
  intros Hmh S. unfold prune. apply N.eqb_neq in Hmh. rewrite Hmh.
  apply (remove_old_buckets_filter (bucket_key_of now o d) (cutoff_of d mh) db S).
Qed.

Lemma find_filter_rejected (f : bucket_object -> bool) k db :
  (forall x, key x = k -> f x = false) -> find k (filter f db) = None.
Proof.
  intros Hk. induction db as [ | x rest IH]; simpl; [reflexivity | ].
  destruct (f x) eqn:Fx; simpl; [ | exact IH].
  destruct (key_eqb (key x) k) eqn:E; [ | exact IH].
  apply key_eqb_eq in E. rewrite (Hk x E) in Fx; discriminate.
Qed.

Lemma sorted_NoDup_keys db : sorted db -> NoDup (map key db).
Proof.
  unfold sorted. induction 1 as [ | x rest S IH Hx]; simpl; constructor;
    [ | exact IH].
  intros Hin. apply in_map_iff in Hin. destruct Hin as [y [Hy Hin]].
  rewrite Forall_forall in Hx. specialize (Hx y Hin). unfold key_lt_obj in Hx.
  rewrite Hy, key_ltb_irrefl in Hx. discriminate.
Qed.

Lemma remove_while_never cond from :
  (forall x, cond x = false) -> remove_while cond from = from.
Proof.
  intros H. destruct from as [ | x rest]; simpl; [reflexivity | ].
  rewrite H; reflexivity.
Qed.

(** On an ordered index, one loop iteration for an accepted event is the
    find / create / modify step followed by the removal of exactly those
    objects of the event's market and of bucket size [d] whose open time is
    before [bucket * max_history] seconds after the epoch (32-bit product);
    every other object stays, in the same order. *)
Theorem process_bucket_prunes_exactly mh now o db d :
  accepted o = true -> d <> 0 -> mh <> 0 -> sorted db ->
  process_bucket mh now o db d =
  Some (filter (fun x => negb (pruned_by mh o d x))
          (update_or_create (bucket_key_of now o d) (trade_price_of o) db)).
Proof.
  intros A Hd Hmh S.
  rewrite (process_bucket_accepted mh now o db d A Hd).
  rewrite (prune_filter mh o now d _ Hmh (update_or_create_sorted _ _ db S)).
  reflexivity.
Qed.

Lemma process_bucket_prunes_exactly_witness :
  let o := mk_fill (mk_asset 2 1) (mk_asset 1 2) in
  let old := mk_bucket (mk_key 1 2 60 120) 2 1 2 1 2 1 2 1 2 1 in
  let other := mk_bucket (mk_key 1 2 3600 0) 2 1 2 1 2 1 2 1 2 1 in
  sorted [old; other] /\
  process_bucket 3 1500000000 o [old; other] 60 =
  Some [mk_bucket (mk_key 1 2 60 1500000000) 2 1 2 1 2 1 2 1 2 1; other].
Proof.
  intros o old other.
  assert (S : sorted [old; other]).
  { repeat constructor. }
  split; [exact S | ].
  refine (eq_trans
            (process_bucket_prunes_exactly 3 1500000000 o [old; other] 60 _ _ _ S) _);
    [reflexivity | discriminate | discriminate | reflexivity].
Defined.

(** The store never holds two objects under one key: an ordered index stays
    strictly ordered by key through any sequence of blocks, because every
    [create] is guarded by a failed [find]. *)
Theorem replay_keeps_keys_unique plugin blocks db db' :
  sorted db -> replay plugin blocks db = Some db' ->
  sorted db' /\ NoDup (map key db') /\
  forall k b, In b db' -> key b = k -> find k db' = Some b.
Proof.
  intros S E. pose proof (replay_sorted plugin blocks db db' S E) as S'.
  split; [exact S' | ]. split; [apply sorted_NoDup_keys; exact S' | ].
  clear E S. unfold sorted in S'.
  induction S' as [ | x rest Sr IH Hx]; intros k b Hin Hk; [destruct Hin | ].
  simpl. destruct Hin as [-> | Hin].
  - rewrite Hk, key_eqb_refl; reflexivity.
  - destruct (key_eqb (key x) k) eqn:Ex; [ | exact (IH k b Hin Hk)].
    apply key_eqb_eq in Ex. rewrite Forall_forall in Hx.
    specialize (Hx b Hin). unfold key_lt_obj in Hx.
    rewrite Ex, Hk, key_ltb_irrefl in Hx. discriminate.
Qed.

Lemma replay_keeps_keys_unique_witness :
  let trade := fill_order (mk_fill (mk_asset 2 1) (mk_asset 1 2)) in
  let blocks := [mk_block 1500000000 [trade; trade]; mk_block 1500000060 [trade]] in
  exists db', replay (mk_plugin [60; 3600] 1000) blocks [] = Some db' /\
              length db' = 3%nat /\ NoDup (map key db').
Proof.
  intros trade blocks. eexists.
  split; [vm_compute; reflexivity | ]. split; [reflexivity | ].
  refine (proj1 (proj2 (replay_keeps_keys_unique (mk_plugin [60; 3600] 1000)
                          blocks [] _ _ _))).
  - constructor.
  - vm_compute; reflexivity.
Defined.

Lemma routed_some k ps b :
  exists b', routed k ps (Some b) = Some b' /\ key b' = key b /\
             open_base b' = open_base b /\ open_quote b' = open_quote b.
Proof.
  revert b. induction ps as [ | p rest IH]; intros b.
  - exists b. repeat split.
  - change (routed k (p :: rest) (Some b))
      with (routed k rest (Some (update_bucket p b))).
    destruct (IH (update_bucket p b)) as [b' [E [K [O1 O2]]]].
    exists b'. split; [exact E | ].
    rewrite K, O1, O2, update_bucket_key.
    unfold update_bucket.
    repeat match goal with |- context [if ?c then _ else _] => destruct c end;
      repeat split.
Qed.

(** A bucket whose open time is not before [bucket * max_history] seconds
    after the epoch is never removed, however far the block time advances:
    after any further blocks it is still found under its key, with the open
    price it was created with. *)
Theorem live_bucket_never_removed plugin blocks k db b :
  well_configured plugin -> tracked_live plugin k -> max_history plugin <> 0 ->
  find k db = Some b ->
  exists db' b', replay plugin blocks db = Some db' /\
    find k db' = Some b' /\ key b' = key b /\
    open_base b' = open_base b /\ open_quote b' = open_quote b.
Proof.
  intros Hc Hk Hmh F.
  destruct (replay_find plugin blocks k Hc Hk Hmh db) as [db' [E' F']].
  destruct (routed_some k (routed_prices_blocks k blocks) b) as [b' [R P]].
  exists db', b'. split; [exact E' | ]. split; [ | exact P].
  rewrite F', F. exact R.
Qed.

Lemma live_bucket_never_removed_witness :
  let plugin := mk_plugin [60] 3 in
  let k := mk_key 1 2 60 1200 in
  let b := mk_bucket k 2 1 2 1 2 1 2 1 2 1 in
  let trade := fill_order (mk_fill (mk_asset 3 1) (mk_asset 1 2)) in
  exists db' b', replay plugin [mk_block 4000000000 [trade]] [b] = Some db' /\
    find k db' = Some b' /\ key b' = key b /\
    open_base b' = open_base b /\ open_quote b' = open_quote b.
Proof.
  intros plugin k b trade.
  apply (live_bucket_never_removed plugin [mk_block 4000000000 [trade]] k [b] b).
  - split; [repeat constructor; simpl; tauto | repeat constructor; discriminate].
  - split; [left; reflexivity | right; discriminate].
  - discriminate.
  - reflexivity.
Defined.

(** A trade whose slot opens before [bucket * max_history] seconds after the
    epoch is never recorded: its bucket is created (or updated) and removed
    again in the same loop iteration. *)
Theorem slot_before_cutoff_not_recorded mh now o db d :
  accepted o = true -> d <> 0 -> mh <> 0 -> sorted db ->
  open_of now d < cutoff_of d mh ->
  exists db', process_bucket mh now o db d = Some db' /\
    find (bucket_key_of now o d) db' = None /\
    Forall (fun x => pruned_by mh o d x = false) db'.
Proof.
  intros A Hd Hmh S Hlt.
  rewrite (process_bucket_accepted mh now o db d A Hd).
  rewrite (prune_filter mh o now d _ Hmh (update_or_create_sorted _ _ db S)).
  eexists. split; [reflexivity | ]. split.
  - apply find_filter_rejected. intros x Hx.
    unfold pruned_by. rewrite Hx; simpl.
    rewrite !N.eqb_refl. apply N.ltb_lt in Hlt. rewrite Hlt. reflexivity.
  - apply Forall_forall. intros x Hx. apply filter_In in Hx.
    destruct Hx as [_ Hx]. apply negb_true_iff in Hx. exact Hx.
Qed.

Lemma slot_before_cutoff_not_recorded_witness :
  let o := mk_fill (mk_asset 2 1) (mk_asset 1 2) in
  open_of 1500000000 2592000 < cutoff_of 2592000 1000 /\
  exists db', process_bucket 1000 1500000000 o [] 2592000 = Some db' /\
    find (bucket_key_of 1500000000 o 2592000) db' = None /\
    Forall (fun x => pruned_by 1000 o 2592000 x = false) db'.
Proof.
  intros o. split; [reflexivity | ].
  apply (slot_before_cutoff_not_recorded 1000 1500000000 o [] 2592000);
    [reflexivity | discriminate | discriminate | constructor | reflexivity].
Defined.

(** The cutoff is a 32-bit product: when [bucket * max_history] is a multiple
    of [2^32] it wraps to the epoch and the pruning pass removes nothing. *)
Theorem cutoff_wrapped_to_epoch_prunes_nothing mh now o db d :
  accepted o = true -> d <> 0 -> (d * mh) mod 4294967296 = 0 ->
  process_bucket mh now o db d =
  Some (update_or_create (bucket_key_of now o d) (trade_price_of o) db).
Proof.
  intros A Hd Hw.
  rewrite (process_bucket_accepted mh now o db d A Hd).
  unfold prune. destruct (mh =? 0); [reflexivity | ].
  unfold cutoff_of, wrap32. rewrite Hw. unfold remove_old_buckets.
  set (k0 := mk_key _ _ _ 0). set (db1 := update_or_create _ _ db).
  pose proof (lower_bound_app k0 db1) as Happ.
  destruct (lower_bound k0 db1) as [before from]; simpl in Happ.
  rewrite remove_while_never; [f_equal; exact Happ | ].
  intros x. unfold is_old.
  replace (key_open (key x) <? 0) with false
    by (symmetry; apply N.ltb_ge; lia).
  apply andb_false_r.
Qed.

Lemma cutoff_wrapped_to_epoch_prunes_nothing_witness :
  let o := mk_fill (mk_asset 2 1) (mk_asset 1 2) in
  let old := mk_bucket (mk_key 1 2 65536 0) 2 1 2 1 2 1 2 1 2 1 in
  (65536 * 65536) mod 4294967296 = 0 /\
  process_bucket 65536 1500000000 o [old] 65536 =
  Some (update_or_create (bucket_key_of 1500000000 o 65536) (trade_price_of o) [old]).
Proof.
  intros o old. split; [reflexivity | ].
  apply (cutoff_wrapped_to_epoch_prunes_nothing 65536 1500000000 o [old] 65536);
    [reflexivity | discriminate | reflexivity].
Defined.

(** ** The tracked set *)

Lemma plugin_initialize_sorted bucket_size history_per_size :
  StronglySorted N.lt (tracked_buckets (plugin_initialize bucket_size history_per_size)).
Proof.
  unfold plugin_initialize; simpl.
  assert (G : forall l s, StronglySorted N.lt s ->
    StronglySorted N.lt (fold_left (fun s o => flat_set_insert o s) l s)).
  { induction l as [ | o rest IH]; intros s Hs; simpl; [exact Hs | ].
    apply IH. apply flat_set_insert_sorted. exact Hs. }
  apply G. constructor.
Qed.

Lemma plugin_initialize_in bucket_size history_per_size d :
  In d (tracked_buckets (plugin_initialize bucket_size history_per_size)) <->
  In d bucket_size.
Proof.
  unfold plugin_initialize; simpl.
  assert (G : forall l s,
    In d (fold_left (fun s o => flat_set_insert o s) l s) <-> In d l \/ In d s).
  { induction l as [ | o rest IH]; intros s; simpl; [intuition | ].
    rewrite IH, flat_set_insert_in. intuition. }
  rewrite G. simpl. intuition.
Qed.

(** Two strictly increasing lists with the same elements are equal. *)
Lemma sorted_lt_ext l1 l2 :
  StronglySorted N.lt l1 -> StronglySorted N.lt l2 ->
  (forall d, In d l1 <-> In d l2) -> l1 = l2.
Proof.
  intros S1. revert l2. induction S1 as [ | x r1 S1 IH H1]; intros l2 S2 E.
  - destruct l2 as [ | y r2]; [reflexivity | ].
    destruct (proj2 (E y) (or_introl eq_refl)).
  - destruct S2 as [ | y r2 S2 H2].
    + destruct (proj1 (E x) (or_introl eq_refl)).
    + rewrite Forall_forall in H1, H2.
      assert (x = y).
      { destruct (proj1 (E x) (or_introl eq_refl)) as [Hy | Hy]; [auto | ].
        destruct (proj2 (E y) (or_introl eq_refl)) as [Hx | Hx]; [auto | ].
        specialize (H1 y Hx). specialize (H2 x Hy). lia. }
      subst y. f_equal. apply IH; [exact S2 | ].
      intros d. split; intros Hd.
      * destruct (proj1 (E d) (or_intror Hd)) as [<- | Hd']; [ | exact Hd'].
        specialize (H1 x Hd). lia.
      * destruct (proj2 (E d) (or_intror Hd)) as [<- | Hd']; [ | exact Hd'].
        specialize (H2 x Hd). lia.
Qed.

(** [plugin_initialize] builds a set: the tracked sizes are exactly the
    configured ones, in increasing order without repetition, so the order
    and the repetitions of the [bucket-size] options do not matter; without
    a [history-per-size] option the depth is 1000. *)
Theorem plugin_initialize_builds_a_set bucket_size bucket_size' history_per_size :
  (forall d, In d bucket_size <-> In d bucket_size') ->
  plugin_initialize bucket_size history_per_size =
    plugin_initialize bucket_size' history_per_size /\
  StronglySorted N.lt (tracked_buckets (plugin_initialize bucket_size history_per_size)) /\
  NoDup (tracked_buckets (plugin_initialize bucket_size history_per_size)) /\
  (forall d, In d (tracked_buckets (plugin_initialize bucket_size history_per_size))
             <-> In d bucket_size) /\
  max_history (plugin_initialize bucket_size None) = 1000.
Proof.
  intros E.
  pose proof (plugin_initialize_sorted bucket_size history_per_size) as S.
  pose proof (plugin_initialize_sorted bucket_size' history_per_size) as S'.
  split; [ | split; [exact S | split; [apply sorted_lt_NoDup; exact S | split]]].
  - assert (T : tracked_buckets (plugin_initialize bucket_size history_per_size) =
                tracked_buckets (plugin_initialize bucket_size' history_per_size)).
    { apply sorted_lt_ext; [exact S | exact S' | ].
      intros d. rewrite !plugin_initialize_in. apply E. }
    unfold plugin_initialize in *. simpl in T. rewrite T. reflexivity.
  - intros d. apply plugin_initialize_in.
  - reflexivity.
Qed.

Lemma plugin_initialize_builds_a_set_witness :
  plugin_initialize [3600; 60; 3600; 86400; 60] (Some 500) =
  plugin_initialize [60; 3600; 86400] (Some 500).
Proof.
  refine (proj1 (plugin_initialize_builds_a_set [3600; 60; 3600; 86400; 60]
                   [60; 3600; 86400] (Some 500) _)).
  intros d. simpl. intuition.
Defined.

(** ** A zero bucket size *)

Lemma for_each_none {A} (step : database -> A -> option database) l x :
  In x l -> (forall db, step db x = None) -> forall db, for_each step l db = None.
Proof.
  intros Hin Hx. induction l as [ | y rest IH]; intros db; [destruct Hin | ].
  simpl. destruct Hin as [-> | Hin].
  - rewrite Hx; reflexivity.
  - destruct (step db y) as [db1 | ]; simpl; [apply IH; exact Hin | reflexivity].
Qed.

(** [plugin_initialize] does not reject a bucket size of zero, and the loop
    divides by the bucket size: with a zero size configured, processing an
    event that passes the duplicate filter is undefined (a division by zero),
    for the handler and for every block that holds such an event; an event
    that the filter skips is still processed. *)
Theorem zero_bucket_size_divides_by_zero bucket_size history_per_size now o db :
  In 0 bucket_size -> accepted o = true ->
  let plugin := plugin_initialize bucket_size history_per_size in
  process_fill_order plugin now o db = None /\
  (forall b, max_history plugin <> 0 -> In (fill_order o) (applied_operations b) ->
             update_market_histories plugin db b = None) /\
  (forall o', accepted o' = false -> process_fill_order plugin now o' db = Some db).
Proof.
  intros H0 A plugin.
  assert (T : In 0 (tracked_buckets plugin)) by (apply plugin_initialize_in; exact H0).
  assert (P : forall t db1, process_fill_order plugin t o db1 = None).
  { intros t db1. unfold process_fill_order.
    apply (for_each_none _ _ 0 T). intros db2.
    unfold process_bucket. unfold accepted in A. apply negb_true_iff in A.
    rewrite A. reflexivity. }
  split; [apply P | ]. split.
  - intros b Hmh Hin. unfold update_market_histories.
    apply N.eqb_neq in Hmh. rewrite Hmh.
    assert (L : (N.of_nat (length (tracked_buckets plugin)) =? 0) = false).
    { destruct (tracked_buckets plugin); [destruct T | ].
      apply N.eqb_neq; simpl; lia. }
    rewrite L.
    apply (for_each_none _ _ (fill_order o) Hin). intros db1. apply P.
  - intros o' A'. unfold process_fill_order. clear T P.
    generalize (max_history plugin). intros mh.
    induction (tracked_buckets plugin) as [ | d rest IH]; [reflexivity | ].
    cbn [for_each]. rewrite (process_bucket_skipped _ _ _ _ _ A'). exact IH.
Qed.

Lemma zero_bucket_size_divides_by_zero_witness :
  process_fill_order (plugin_initialize [60; 0] (Some 1000)) 1500000000
    (mk_fill (mk_asset 2 1) (mk_asset 1 2)) [] = None.
Proof.
  refine (proj1 (zero_bucket_size_divides_by_zero [60; 0] (Some 1000) 1500000000
                   (mk_fill (mk_asset 2 1) (mk_asset 1 2)) [] _ _)).
  - right; left; reflexivity.
  - reflexivity.
Defined.

(** ** Frames *)

(** A fill event touches only the buckets of its own market and of the
    tracked bucket sizes: every bucket of another market, or of a size that is
    not tracked, is left exactly as it was. *)
Theorem other_markets_untouched plugin now o db db' k :
  process_fill_order plugin now o db = Some db' ->
  key_base k <> asset_id (pays o) \/ key_quote k <> asset_id (receives o) \/
  ~ In (key_seconds k) (tracked_buckets plugin) ->
  find k db' = find k db.
Proof.
  intros E Hk. revert E. unfold process_fill_order.
  apply (for_each_invariant (fun db1 => find k db1 = find k db)); [ | reflexivity].
  intros db1 d db2 Hd I1 E1. rewrite <- I1.
  destruct (accepted o) eqn:A.
  - destruct (N.eq_dec d 0) as [-> | Hd0].
    + unfold process_bucket in E1. unfold accepted in A.
      apply negb_true_iff in A. rewrite A in E1. discriminate.
    + rewrite (process_bucket_accepted _ _ _ _ _ A Hd0) in E1.
      injection E1 as <-.
      rewrite find_prune.
      * apply find_update_or_create_other. intros ->. simpl in Hk.
        destruct Hk as [Hk | [Hk | Hk]]; auto.
      * simpl.
        destruct (key_base k =? asset_id (pays o)) eqn:E1; [ | reflexivity].
        destruct (key_quote k =? asset_id (receives o)) eqn:E2; [ | reflexivity].
        destruct (key_seconds k =? d) eqn:E3; [ | reflexivity].
        apply N.eqb_eq in E1, E2, E3. subst d.
        destruct Hk as [Hk | [Hk | Hk]]; contradiction.
  - rewrite (process_bucket_skipped _ _ _ _ _ A) in E1.
    injection E1 as <-. reflexivity.
Qed.

Lemma other_markets_untouched_witness :
  let plugin := mk_plugin [60] 3 in
  let o := mk_fill (mk_asset 2 1) (mk_asset 1 2) in
  let other := mk_bucket (mk_key 1 3 60 0) 5 1 5 1 5 1 5 1 5 1 in
  find (mk_key 1 3 60 0)
       [mk_bucket (mk_key 1 2 60 1500000000) 2 1 2 1 2 1 2 1 2 1; other] =
  find (mk_key 1 3 60 0) [other].
Proof.
  intros plugin o other.
  apply (other_markets_untouched plugin 1500000000 o [other]
           [mk_bucket (mk_key 1 2 60 1500000000) 2 1 2 1 2 1 2 1 2 1; other]
           (mk_key 1 3 60 0)).
  - reflexivity.
  - right; left. discriminate.
Defined.

(** The bucket sizes are independent of each other: the bucket under a key
    that is tracked and not pruned evolves in the same way whatever other
    sizes are tracked beside it. *)
Theorem tracked_sizes_independent plugin1 plugin2 blocks k db1 db2 :
  well_configured plugin1 -> well_configured plugin2 ->
  tracked_live plugin1 k -> tracked_live plugin2 k ->
  max_history plugin1 <> 0 -> max_history plugin2 <> 0 ->
  find k db1 = find k db2 ->
  exists db1' db2',
    replay plugin1 blocks db1 = Some db1' /\
    replay plugin2 blocks db2 = Some db2' /\
    find k db1' = find k db2'.
Proof.
  intros C1 C2 L1 L2 M1 M2 F.
  destruct (replay_find plugin1 blocks k C1 L1 M1 db1) as [db1' [E1 F1]].
  destruct (replay_find plugin2 blocks k C2 L2 M2 db2) as [db2' [E2 F2]].
  exists db1', db2'. split; [exact E1 | ]. split; [exact E2 | ].
  rewrite F1, F2, F. reflexivity.
Qed.

Lemma tracked_sizes_independent_witness :
  let trade := fill_order (mk_fill (mk_asset 2 1) (mk_asset 1 2)) in
  let blocks := [mk_block 1500000000 [trade]; mk_block 1500000030 [trade]] in
  let k := mk_key 1 2 60 1500000000 in
  exists db1' db2',
    replay (mk_plugin [60] 1000) blocks [] = Some db1' /\
    replay (mk_plugin [60; 3600] 500) blocks [] = Some db2' /\
    find k db1' = find k db2'.
Proof.
  intros trade blocks k.
  apply (tracked_sizes_independent (mk_plugin [60] 1000) (mk_plugin [60; 3600] 500)
           blocks k [] []).
  - split; [repeat constructor; simpl; tauto | repeat constructor; discriminate].
  - split.
    + constructor; [simpl; intros [H | []]; discriminate | ].
      constructor; [simpl; tauto | constructor].
    + repeat constructor; discriminate.
  - split; [left; reflexivity | right; discriminate].
  - split; [left; reflexivity | right; discriminate].
  - discriminate.
  - discriminate.
  - reflexivity.
Defined.

(** ** Slots and keys *)

(** For a 32-bit block time and a non-zero bucket size, the slot of [now] is
    the multiple of the bucket size at or below [now], less than one bucket
    size away; two block times share a slot exactly when they fall in the
    same interval. *)
Theorem slot_of_block_time now now' d :
  now < 4294967296 -> now' < 4294967296 -> d <> 0 ->
  open_of now d mod d = 0 /\
  open_of now d <= now < open_of now d + d /\
  (open_of now d = open_of now' d <-> now / d = now' / d) /\
  (open_of now d <= now' < open_of now d + d -> open_of now' d = open_of now d).
Proof.
  intros Hn Hn' Hd.
  rewrite (open_of_floor now d Hn Hd), (open_of_floor now' d Hn' Hd).
  pose proof (N.Div0.mul_div_le now d) as L.
  pose proof (N.mul_succ_div_gt now d Hd) as U.
  split; [apply N.Div0.mod_mul | ]. split; [lia | ]. split.
  - split; [ | intros ->; reflexivity].
    intros E. apply N.mul_cancel_r in E; assumption.
  - intros [H1 H2]. f_equal. symmetry.
    apply (N.div_unique now' d (now / d) (now' - now / d * d)); lia.
Qed.

Lemma slot_of_block_time_witness :
  open_of 1500000059 60 mod 60 = 0 /\
  open_of 1500000059 60 <= 1500000059 < open_of 1500000059 60 + 60 /\
  (open_of 1500000059 60 = open_of 1500000000 60 <->
   1500000059 / 60 = 1500000000 / 60) /\
  (open_of 1500000059 60 <= 1500000000 < open_of 1500000059 60 + 60 ->
   open_of 1500000000 60 = open_of 1500000059 60).
Proof.
  apply (slot_of_block_time 1500000059 1500000000 60);
    [reflexivity | reflexivity | discriminate].
Defined.

Lemma process_bucket_keys plugin now o db d db' :
  now < 4294967296 -> In d (tracked_buckets plugin) ->
  Forall (fun x => key_well_formed plugin (key x)) db ->
  process_bucket (max_history plugin) now o db d = Some db' ->
  Forall (fun x => key_well_formed plugin (key x)) db'.
Proof.
  intros Hn Hd Hdb. destruct (accepted o) eqn:A.
  - destruct (N.eq_dec d 0) as [-> | Hd0].
    + unfold process_bucket. unfold accepted in A.
      apply negb_true_iff in A. rewrite A; simpl. discriminate.
    + rewrite (process_bucket_accepted _ now o db d A Hd0). intros [= <-].
      apply Forall_prune. apply Forall_update_or_create; [ | | exact Hdb].
      * unfold key_well_formed; simpl. split; [ | split; [exact Hd | ]].
        -- unfold accepted in A. apply negb_true_iff, N.ltb_ge in A. exact A.
        -- rewrite (open_of_floor now d Hn Hd0). apply N.Div0.mod_mul.
      * intros x Hx. rewrite update_bucket_key. exact Hx.
  - rewrite (process_bucket_skipped _ now o db d A). intros [= <-]; exact Hdb.
Qed.

(** Every key the plugin writes is well formed: its base asset id is not
    above its quote asset id, its bucket size is a tracked one, and its open
    time is a multiple of its bucket size.  (The two asset ids may be equal:
    the filter only skips [base > quote].) *)
Theorem stored_keys_well_formed plugin blocks db :
  Forall (fun d => d <> 0) (tracked_buckets plugin) ->
  Forall (fun b => timestamp b < 4294967296) blocks ->
  Forall (fun x => key_well_formed plugin (key x)) db ->
  exists db', replay plugin blocks db = Some db' /\
              Forall (fun x => key_well_formed plugin (key x)) db'.
Proof.
  intros Hnz Ht Hdb.
  destruct (replay_total plugin blocks db Hnz) as [db' E].
  exists db'. split; [exact E | ].
  revert E. unfold replay.
  apply (for_each_invariant
           (fun db1 => Forall (fun x => key_well_formed plugin (key x)) db1));
    [ | exact Hdb].
  intros db1 b db2 Hb I1. unfold update_market_histories.
  destruct (max_history plugin =? 0); [intros [= <-]; exact I1 | ].
  destruct (N.of_nat (length (tracked_buckets plugin)) =? 0);
    [intros [= <-]; exact I1 | ].
  rewrite Forall_forall in Ht. specialize (Ht b Hb).
  apply (for_each_invariant
           (fun db1 => Forall (fun x => key_well_formed plugin (key x)) db1));
    [ | exact I1].
  intros db3 op db4 _ I3. destruct op as [o | | | tag]; simpl;
    try (intros [= <-]; exact I3).
  unfold process_fill_order.
  apply (for_each_invariant
           (fun db1 => Forall (fun x => key_well_formed plugin (key x)) db1));
    [ | exact I3].
  intros db5 d db6 Hd I5. apply process_bucket_keys; assumption.
Qed.

Lemma stored_keys_well_formed_witness :
  let plugin := mk_plugin [60; 3600] 1000 in
  let blocks :=
    [mk_block 1500000059 [fill_order (mk_fill (mk_asset 2 1) (mk_asset 1 2));
                          fill_order (mk_fill (mk_asset 1 2) (mk_asset 2 1))]] in
  exists db', replay plugin blocks [] = Some db' /\
              Forall (fun x => key_well_formed plugin (key x)) db'.
Proof.
  intros plugin blocks.
  apply (stored_keys_well_formed plugin blocks []).
  - repeat constructor; discriminate.
  - repeat constructor.
  - constructor.
Defined.

(** A block never modifies the bucket of another interval: for a tracked key
    that is not pruned, a block whose time falls outside the key's slot leaves
    the bucket under that key exactly as it was. *)
Theorem past_bucket_frozen plugin b k db :
  well_configured plugin -> tracked_live plugin k -> max_history plugin <> 0 ->
  open_of (timestamp b) (key_seconds k) <> key_open k ->
  exists db', update_market_histories plugin db b = Some db' /\
              find k db' = find k db.
Proof.
  intros Hc Hk Hmh Hslot.
  destruct (update_market_histories_find plugin b k db Hc Hk Hmh) as [db' [E F]].
  exists db'. split; [exact E | ]. rewrite F. clear F E.
  assert (R : routed_prices (timestamp b) k (applied_operations b) = []).
  { unfold routed_prices.
    induction (applied_operations b) as [ | op rest IH]; simpl; [reflexivity | ].
    rewrite IH. destruct op as [o | | | tag]; try reflexivity.
    unfold routes. apply N.eqb_neq in Hslot. rewrite Hslot, andb_false_r.
    reflexivity. }
  rewrite R. reflexivity.
Qed.

Lemma past_bucket_frozen_witness :
  let plugin := mk_plugin [60] 1000 in
  let k := mk_key 1 2 60 1500000000 in
  let old := mk_bucket k 2 1 2 1 2 1 2 1 2 1 in
  let b := mk_block 1500000060 [fill_order (mk_fill (mk_asset 9 1) (mk_asset 1 2))] in
  exists db', update_market_histories plugin [old] b = Some db' /\
              find k db' = find k [old].
Proof.
  intros plugin k old b.
  apply (past_bucket_frozen plugin b k [old]).
  - split; [repeat constructor; simpl; tauto | repeat constructor; discriminate].
  - split; [left; reflexivity | right; discriminate].
  - discriminate.
  - discriminate.
Defined.

(** ** Open, high, low and close over a sequence of trades *)

Lemma update_bucket_prices p b :
  price_amounts (high (update_bucket p b)) =
    (if price_lt (high b) p then price_amounts p else price_amounts (high b)) /\
  price_amounts (low (update_bucket p b)) =
    (if price_lt p (low b) then price_amounts p else price_amounts (low b)) /\
  price_amounts (open_price (update_bucket p b)) = price_amounts (open_price b) /\
  price_amounts (close_price (update_bucket p b)) = price_amounts p.
Proof.
  destruct p as [[pb ?] [pq ?]].
  destruct b as [kb hb hq lb lq ob oq cb cq bv qv].
  unfold update_bucket, price_amounts, price_gt, price_lt, high, low, open_price,
    close_price, asset_div; simpl.
  destruct (pq * hb <? hq * pb)%Z; simpl;
    destruct (lq * pb <? pq * lb)%Z; simpl; repeat split; reflexivity.
Qed.

Lemma price_lt_amounts a a' b b' :
  price_amounts a = price_amounts a' -> price_amounts b = price_amounts b' ->
  price_lt a b = price_lt a' b'.
Proof.
  unfold price_amounts, price_lt. intros [= -> ->] [= -> ->]. reflexivity.
Qed.

Lemma price_nonneg_amounts a a' :
  price_amounts a = price_amounts a' -> price_nonneg a -> price_nonneg a'.
Proof.
  unfold price_amounts, price_nonneg. intros [= -> ->]. tauto.
Qed.

Lemma update_bucket_extremes p b seen :
  bucket_nonneg b -> price_nonneg p -> Forall price_nonneg seen ->
  Forall (fun q => price_lt (high b) q = false /\ price_lt q (low b) = false) seen ->
  Forall (fun q => price_lt (high (update_bucket p b)) q = false /\
                   price_lt q (low (update_bucket p b)) = false) (seen ++ [p]).
Proof.
  intros [Hh [Hl _]] Hp Hseen Hext.
  destruct (update_bucket_prices p b) as [EH [EL _]].
  apply Forall_app. split.
  - rewrite Forall_forall in *. intros q Hq.
    destruct (Hext q Hq) as [X1 X2]. specialize (Hseen q Hq). split.
    + destruct (price_lt (high b) p) eqn:HP.
      * rewrite (price_lt_amounts _ p q q EH eq_refl).
        destruct (price_lt p q) eqn:PQ; [ | reflexivity].
        rewrite (price_lt_trans (high b) p q Hh Hp Hseen HP PQ) in X1.
        discriminate.
      * rewrite (price_lt_amounts _ (high b) q q EH eq_refl). exact X1.
    + destruct (price_lt p (low b)) eqn:PL.
      * rewrite (price_lt_amounts q q _ p eq_refl EL).
        destruct (price_lt q p) eqn:QP; [ | reflexivity].
        rewrite (price_lt_trans q p (low b) Hseen Hp Hl QP PL) in X2.
        discriminate.
      * rewrite (price_lt_amounts q q _ (low b) eq_refl EL). exact X2.
  - constructor; [ | constructor]. split.
    + destruct (price_lt (high b) p) eqn:HP.
      * rewrite (price_lt_amounts _ p p p EH eq_refl).
        unfold price_lt. apply Z.ltb_irrefl.
      * rewrite (price_lt_amounts _ (high b) p p EH eq_refl). exact HP.
    + destruct (price_lt p (low b)) eqn:PL.
      * rewrite (price_lt_amounts p p _ p eq_refl EL).
        unfold price_lt. apply Z.ltb_irrefl.
      * rewrite (price_lt_amounts p p _ (low b) eq_refl EL). exact PL.
Qed.

Lemma update_bucket_attained p b seen :
  In (price_amounts (high b)) (map price_amounts seen) ->
  In (price_amounts (low b)) (map price_amounts seen) ->
  In (price_amounts (high (update_bucket p b))) (map price_amounts (seen ++ [p])) /\
  In (price_amounts (low (update_bucket p b))) (map price_amounts (seen ++ [p])).
Proof.
  intros H L. destruct (update_bucket_prices p b) as [EH [EL _]].
  rewrite EH, EL, map_app. split; apply in_or_app.
  - destruct (price_lt (high b) p); [right; left; reflexivity | left; exact H].
  - destruct (price_lt p (low b)); [right; left; reflexivity | left; exact L].
Qed.

Lemma last_cons {A} (l : list A) : forall x d, last (x :: l) d = last l x.
Proof.
  induction l as [ | y rest IH]; intros x d; [reflexivity | ].
  change (last (x :: y :: rest) d) with (last (y :: rest) d).
  rewrite !IH. reflexivity.
Qed.

Lemma last_map_default {A B} (f : A -> B) (l : list A) d :
  last (map f l) (f d) = f (last l d).
Proof.
  induction l as [ | x rest IH]; [reflexivity | ].
  simpl map. rewrite !last_cons. clear IH. revert x.
  induction rest as [ | y rest IH]; intros x; [reflexivity | ].
  simpl map. rewrite !last_cons. apply IH.
Qed.

Lemma routed_extremes k ps : forall b seen,
  bucket_nonneg b -> Forall price_nonneg seen -> Forall price_nonneg ps ->
  Forall (fun q => price_lt (high b) q = false /\ price_lt q (low b) = false) seen ->
  In (price_amounts (high b)) (map price_amounts seen) ->
  In (price_amounts (low b)) (map price_amounts seen) ->
  exists b', routed k ps (Some b) = Some b' /\
    price_amounts (open_price b') = price_amounts (open_price b) /\
    price_amounts (close_price b') =
      last (map price_amounts ps) (price_amounts (close_price b)) /\
    Forall (fun q => price_lt (high b') q = false /\ price_lt q (low b') = false)
           (seen ++ ps) /\
    In (price_amounts (high b')) (map price_amounts (seen ++ ps)) /\
    In (price_amounts (low b')) (map price_amounts (seen ++ ps)).
Proof.
  induction ps as [ | p rest IH]; intros b seen Hb Hseen Hps Hext HH HL.
  - exists b. rewrite app_nil_r. repeat split; assumption.
  - inversion Hps as [ | ? ? Hp Hrest]; subst.
    change (routed k (p :: rest) (Some b))
      with (routed k rest (Some (update_bucket p b))).
    destruct (update_bucket_attained p b seen HH HL) as [HH' HL'].
    destruct (update_bucket_prices p b) as [_ [_ [EO EC]]].
    destruct (IH (update_bucket p b) (seen ++ [p])) as [b' [E [O [C [X [H' L']]]]]].
    + apply update_bucket_nonneg; assumption.
    + apply Forall_app; split; [exact Hseen | constructor; [exact Hp | constructor]].
    + exact Hrest.
    + apply update_bucket_extremes; assumption.
    + exact HH'.
    + exact HL'.
    + exists b'. rewrite <- app_assoc in X, H', L'. simpl in X, H', L'.
      split; [exact E | ]. split; [rewrite O; exact EO | ].
      split; [ | split; [exact X | split; [exact H' | exact L']]].
      rewrite C, EC. simpl map. symmetry. apply last_cons.
Qed.

(** The bucket under a tracked key that is not pruned summarises the trades
    routed into it: its open is the first trade price, its close the last,
    no routed price is above its high or below its low (by
    cross-multiplication), and high and low are themselves routed prices. *)
Theorem bucket_summarises_trades plugin blocks k db p ps :
  well_configured plugin -> tracked_live plugin k -> max_history plugin <> 0 ->
  find k db = None ->
  Forall (block_holds fill_nonneg) blocks ->
  routed_prices_blocks k blocks = p :: ps ->
  exists db' b, replay plugin blocks db = Some db' /\ find k db' = Some b /\
    price_amounts (open_price b) = price_amounts p /\
    price_amounts (close_price b) = price_amounts (last ps p) /\
    Forall (fun q => price_lt (high b) q = false /\ price_lt q (low b) = false)
           (p :: ps) /\
    In (price_amounts (high b)) (map price_amounts (p :: ps)) /\
    In (price_amounts (low b)) (map price_amounts (p :: ps)).
Proof.
  intros Hc Hk Hmh F Hb R.
  destruct (replay_find plugin blocks k Hc Hk Hmh db) as [db' [E' F']].
  pose proof (routed_prices_blocks_nonneg k blocks Hb) as Hn.
  rewrite R in Hn, F'. rewrite F in F'.
  inversion Hn as [ | ? ? Hp Hps]; subst.
  change (routed k (p :: ps) None) with (routed k ps (Some (create_bucket k p))) in F'.
  destruct (routed_extremes k ps (create_bucket k p) [p]) as [b [E [O [C [X [H' L']]]]]].
  - apply create_bucket_nonneg; exact Hp.
  - constructor; [exact Hp | constructor].
  - exact Hps.
  - constructor; [ | constructor]. unfold price_lt; simpl.
    rewrite Z.ltb_irrefl. split; reflexivity.
  - left; reflexivity.
  - left; reflexivity.
  - exists db', b. split; [exact E' | ]. split; [rewrite F'; exact E | ].
    split; [exact O | ]. split; [ | split; [exact X | split; [exact H' | exact L']]].
    rewrite C. change (price_amounts (close_price (create_bucket k p)))
      with (price_amounts p).
    apply last_map_default.
Qed.

Lemma bucket_summarises_trades_witness :
  let plugin := mk_plugin [60] 1000 in
  let k := mk_key 1 2 60 1500000000 in
  let fill b q := mk_fill (mk_asset b 1) (mk_asset q 2) in
  let blocks :=
    [mk_block 1500000000 [fill_order (fill 2 1); fill_order (fill 3 1)];
     mk_block 1500000030 [fill_order (fill 1 1); fill_order (fill 5 2)]]%Z in
  exists db' b, replay plugin blocks [] = Some db' /\ find k db' = Some b /\
    price_amounts (open_price b) = (2, 1)%Z /\
    price_amounts (close_price b) = (5, 2)%Z /\
    price_amounts (high b) = (3, 1)%Z /\
    price_amounts (low b) = (1, 1)%Z.
Proof.
  intros plugin k fill blocks.
  destruct (bucket_summarises_trades plugin blocks k []
              (trade_price_of (fill 2 1))%Z
              [trade_price_of (fill 3 1); trade_price_of (fill 1 1);
               trade_price_of (fill 5 2)]%Z)
    as [db' [b [E [F [O [C _]]]]]].
  - split; [repeat constructor; simpl; tauto | repeat constructor; discriminate].
  - split; [left; reflexivity | right; discriminate].
  - discriminate.
  - reflexivity.
  - repeat constructor; simpl; discriminate.
  - reflexivity.
  - exists db', b. split; [exact E | ]. split; [exact F | ].
    split; [exact O | ]. split; [exact C | ].
    vm_compute in E. injection E as <-. vm_compute in F. injection F as <-.
    split; reflexivity.
Defined.

(** ** Growth of the store *)

Lemma create_length b db : length (create b db) = S (length db).
Proof.
  induction db as [ | x rest IH]; simpl; [reflexivity | ].
  destruct (key_ltb (key x) (key b)); simpl; [rewrite IH | ]; reflexivity.
Qed.

Lemma modify_length k f db : length (modify k f db) = length db.
Proof.
  induction db as [ | x rest IH]; simpl; [reflexivity | ].
  destruct (key_eqb (key x) k); simpl; [ | rewrite IH]; reflexivity.
Qed.

Lemma remove_while_length cond from :
  (length (remove_while cond from) <= length from)%nat.
Proof.
  induction from as [ | x rest IH]; simpl; [lia | ].
  destruct (cond x); simpl; lia.
Qed.

Lemma prune_length mh k d db : (length (prune mh k d db) <= length db)%nat.
Proof.
  unfold prune. destruct (mh =? 0); [lia | ].
  unfold remove_old_buckets. set (k0 := mk_key _ _ _ 0).
  pose proof (lower_bound_app k0 db) as Happ.
  destruct (lower_bound k0 db) as [before from]; simpl in Happ.
  rewrite <- Happ, !length_app.
  pose proof (remove_while_length (is_old k0 d (cutoff_of d mh)) from). lia.
Qed.

Lemma process_bucket_length mh now o db d db' :
  process_bucket mh now o db d = Some db' ->
  (length db' <= length db + (if accepted o then 1 else 0))%nat.
Proof.
  destruct (accepted o) eqn:A.
  - destruct (N.eq_dec d 0) as [-> | Hd].
    + unfold process_bucket. unfold accepted in A.
      apply negb_true_iff in A. rewrite A; simpl. discriminate.
    + rewrite (process_bucket_accepted mh now o db d A Hd). intros [= <-].
      pose proof (prune_length mh (bucket_key_of now o d) d
                    (update_or_create (bucket_key_of now o d) (trade_price_of o) db)).
      unfold update_or_create in *.
      destruct (find (bucket_key_of now o d) db);
        [rewrite modify_length in * | rewrite create_length in *]; lia.
  - rewrite (process_bucket_skipped mh now o db d A). intros [= <-]. lia.
Qed.

Lemma process_buckets_length mh now o ds : forall db db',
  for_each (process_bucket mh now o) ds db = Some db' ->
  (length db' <= length db + (if accepted o then length ds else 0))%nat.
Proof.
  induction ds as [ | d rest IH]; intros db db' V; simpl in *.
  - injection V as <-. destruct (accepted o); lia.
  - destruct (process_bucket mh now o db d) as [db2 | ] eqn:P;
      simpl in V; [ | discriminate].
    apply process_bucket_length in P. specialize (IH db2 db' V).
    destruct (accepted o); lia.
Qed.

(** The store grows by at most one object per accepted fill event and
    tracked bucket size; events that the filter skips and all other
    operations add nothing. *)
Theorem store_growth_bounded plugin b db db' :
  update_market_histories plugin db b = Some db' ->
  (length db' <=
   length db +
   length (filter (fun op => match op with
                             | fill_order o => accepted o
                             | _ => false
                             end) (applied_operations b))
   * length (tracked_buckets plugin))%nat.
Proof.
  unfold update_market_histories.
  destruct (max_history plugin =? 0); [intros [= <-]; lia | ].
  destruct (N.of_nat (length (tracked_buckets plugin)) =? 0);
    [intros [= <-]; lia | ].
  revert db. induction (applied_operations b) as [ | op rest IH]; intros db; simpl.
  - intros [= <-]. lia.
  - destruct (visit plugin (timestamp b) db op) as [db1 | ] eqn:V; simpl;
      [ | discriminate].
    intros E. specialize (IH db1 E).
    destruct op as [o | | | tag]; simpl in V;
      try (injection V as <-; exact IH).
    apply process_buckets_length in V.
    destruct (accepted o); simpl in *; lia.
Qed.

Lemma store_growth_bounded_witness :
  let plugin := mk_plugin [60; 3600] 1000 in
  let b := mk_block 1500000000
             [fill_order (mk_fill (mk_asset 2 1) (mk_asset 1 2));
              fill_order (mk_fill (mk_asset 1 2) (mk_asset 2 1));
              witness_create] in
  exists db', update_market_histories plugin [] b = Some db' /\
              (length db' <= 0 + 1 * 2)%nat.
Proof.
  intros plugin b.
  assert (E : update_market_histories plugin [] b =
              Some [mk_bucket (mk_key 1 2 60 1500000000) 2 1 2 1 2 1 2 1 2 1;
                    mk_bucket (mk_key 1 2 3600 1499997600) 2 1 2 1 2 1 2 1 2 1])
    by (vm_compute; reflexivity).
  eexists. split; [exact E | ].
  exact (store_growth_bounded plugin b [] _ E).
Defined.
